(** * Twitch username checker: the history store, the validator and the check

    A shallow embedding of [src/App.tsx].  JavaScript strings are sequences
    of UTF-16 code units; the text kept in [localStorage] is a JavaScript
    string holding JSON, so [JSON.stringify] and [JSON.parse] are embedded
    at the level of code units.  What the browser supplies and the
    repository does not define (number conversion, Unicode lower-casing,
    the text of native errors, the worker URL) is gathered in the class
    [Host]. *)

From Stdlib Require Import List NArith Arith Bool Lia Ascii.
From Stdlib Require String.
Import ListNotations String.StringSyntax.
Local Open Scope N_scope.

(** ** JavaScript strings *)

Definition jsstring := list N.

(** The code units of an ASCII literal. *)
Fixpoint js (s : String.string) : jsstring :=
  match s with
  | String.EmptyString => []
  | String.String a s' => N_of_ascii a :: js s'
  end.
Delimit Scope string_scope with str.
Arguments js s%_str.

Fixpoint jsstring_eqb (a b : jsstring) : bool :=
  match a, b with
  | [], [] => true
  | x :: a', y :: b' => (x =? y) && jsstring_eqb a' b'
  | _, _ => false
  end.

Definition between (lo hi c : N) : bool := (lo <=? c) && (c <=? hi).

(** [WhiteSpace] and [LineTerminator] of ECMAScript, the code units that
    [String.prototype.trim] strips. *)
Definition is_js_whitespace (c : N) : bool :=
  between 9 13 c || (c =? 32) || (c =? 160) || (c =? 5760)
  || between 8192 8202 c || (c =? 8232) || (c =? 8233) || (c =? 8239)
  || (c =? 8287) || (c =? 12288) || (c =? 65279).

Fixpoint trimStart (s : jsstring) : jsstring :=
  match s with
  | [] => []
  | c :: s' => if is_js_whitespace c then trimStart s' else s
  end.

Definition trimEnd (s : jsstring) : jsstring := rev (trimStart (rev s)).

Definition trim (s : jsstring) : jsstring := trimEnd (trimStart s).

(** Decimal digits of a number, as the template literal prints an integer. *)
Fixpoint uint_digits (d : Decimal.uint) : jsstring :=
  match d with
  | Decimal.Nil => []
  | Decimal.D0 d' => 48 :: uint_digits d'
  | Decimal.D1 d' => 49 :: uint_digits d'
  | Decimal.D2 d' => 50 :: uint_digits d'
  | Decimal.D3 d' => 51 :: uint_digits d'
  | Decimal.D4 d' => 52 :: uint_digits d'
  | Decimal.D5 d' => 53 :: uint_digits d'
  | Decimal.D6 d' => 54 :: uint_digits d'
  | Decimal.D7 d' => 55 :: uint_digits d'
  | Decimal.D8 d' => 56 :: uint_digits d'
  | Decimal.D9 d' => 57 :: uint_digits d'
  end.

Definition decimal (n : N) : jsstring := uint_digits (N.to_uint n).

(** Hexadecimal digits. *)
Definition hex_digit_lower (d : N) : N := if d <? 10 then 48 + d else 87 + d.
Definition hex_digit_upper (d : N) : N := if d <? 10 then 48 + d else 55 + d.

Definition hex_value (c : N) : option N :=
  if between 48 57 c then Some (c - 48)
  else if between 97 102 c then Some (c - 87)
  else if between 65 70 c then Some (c - 55)
  else None.

Definition is_high_surrogate (c : N) : bool := between 55296 56319 c.
Definition is_low_surrogate (c : N) : bool := between 56320 57343 c.

(** ** encodeURIComponent *)

(** [A-Z a-z 0-9 - _ . ! ~ * ' ( )] pass unescaped. *)
Definition uri_unreserved (c : N) : bool :=
  between 65 90 c || between 97 122 c || between 48 57 c
  || (c =? 45) || (c =? 95) || (c =? 46) || (c =? 33) || (c =? 126)
  || (c =? 42) || (c =? 39) || (c =? 40) || (c =? 41).

Definition percent (byte : N) : jsstring :=
  [37; hex_digit_upper (byte / 16); hex_digit_upper (byte mod 16)].

Definition utf8_percent (cp : N) : jsstring :=
  if cp <? 128 then percent cp
  else if cp <? 2048 then percent (192 + cp / 64) ++ percent (128 + cp mod 64)
  else if cp <? 65536 then
    percent (224 + cp / 4096) ++ percent (128 + (cp / 64) mod 64)
    ++ percent (128 + cp mod 64)
  else
    percent (240 + cp / 262144) ++ percent (128 + (cp / 4096) mod 64)
    ++ percent (128 + (cp / 64) mod 64) ++ percent (128 + cp mod 64).

(** [None] stands for the [URIError] raised on an unpaired surrogate. *)
Fixpoint encodeURIComponent (s : jsstring) : option jsstring :=
  match s with
  | [] => Some []
  | c :: s1 =>
    if uri_unreserved c then option_map (cons c) (encodeURIComponent s1)
    else if is_low_surrogate c then None
    else if is_high_surrogate c then
      match s1 with
      | d :: s2 =>
        if is_low_surrogate d then
          option_map
            (app (utf8_percent ((c - 55296) * 1024 + (d - 56320) + 65536)))
            (encodeURIComponent s2)
        else None
      | [] => None
      end
    else option_map (app (utf8_percent c)) (encodeURIComponent s1)
  end.

(** ** The host environment *)

(** The errors the engine itself raises in [App.tsx], one for each place
    and each kind of value that raises there: reading a property of [null]
    or [undefined] and calling what is not a function are different
    errors, with different messages. *)
Inductive native_error :=
  | FilterOfNull             (* history.filter, history null *)
  | FilterNotCallable        (* history.filter(...), history another value
                                that is not an array *)
  | UsernameOfNullish        (* h.username, h null *)
  | ToLowerCaseOfUndefined   (* h.username.toLowerCase, h without username *)
  | ToLowerCaseOfNull        (* h.username.toLowerCase, username null *)
  | ToLowerCaseNotCallable   (* h.username.toLowerCase(), username another
                                value that is not a string *)
  | ExistsOfNullish          (* data.exists, data null *)
  | URIMalformed.            (* encodeURIComponent *)

(** How a call that may raise an engine error completes. *)
Inductive completion (A : Type) :=
  | Normal (a : A)
  | Throw (e : native_error).
Arguments Normal {A} a.
Arguments Throw {A} e.

(** The outcome of reading a JSON construct from the front of a text: the
    construct and the text after it, a syntax error, or a reader that ran
    out of fuel. *)
Inductive parsed (A : Type) :=
  | Parsed (a : A) (rest : jsstring)
  | Malformed
  | OutOfFuel.
Arguments Parsed {A} a rest.
Arguments Malformed {A}.
Arguments OutOfFuel {A}.

Definition bind {A B} (p : parsed A) (k : A -> jsstring -> parsed B) : parsed B :=
  match p with
  | Parsed a rest => k a rest
  | Malformed => Malformed
  | OutOfFuel => OutOfFuel
  end.

Class Host := {
  (** IEEE doubles, reached only through these conversions *)
  number : Type;
  parse_number : jsstring -> number;        (* a JSON number lexeme *)
  number_to_string : number -> jsstring;    (* as JSON.stringify prints it *)
  number_truthy : number -> bool;           (* ToBoolean *)
  (** String.prototype.toLowerCase *)
  toLowerCase : jsstring -> jsstring;
  (** the message property of an error raised by the engine *)
  native_message : native_error -> jsstring;
  (** import.meta.env.VITE_WORKER_URL, as the template literal prints it *)
  WORKER_URL : jsstring
}.

(** A host for closed examples: a number is kept as its lexeme, truthy when
    its mantissa has a digit other than 0, and lower-casing acts on [A-Z]
    only, which is what a browser does on ASCII strings. *)
Definition ascii_lower (c : N) : N := if between 65 90 c then c + 32 else c.

Fixpoint mantissa (lexeme : jsstring) : jsstring :=
  match lexeme with
  | [] => []
  | c :: l => if (c =? 101) || (c =? 69) then [] else c :: mantissa l
  end.

Definition ascii_host : Host := {|
  number := jsstring;
  parse_number := fun lexeme => lexeme;
  number_to_string := fun lexeme => lexeme;
  number_truthy := fun lexeme => existsb (between 49 57) (mantissa lexeme);
  toLowerCase := map ascii_lower;
  native_message := fun e =>
    match e with
    | FilterOfNull => js "Cannot read properties of null (reading 'filter')"
    | FilterNotCallable => js "history.filter is not a function"
    | UsernameOfNullish => js "Cannot read properties of null (reading 'username')"
    | ToLowerCaseOfUndefined =>
      js "Cannot read properties of undefined (reading 'toLowerCase')"
    | ToLowerCaseOfNull => js "Cannot read properties of null (reading 'toLowerCase')"
    | ToLowerCaseNotCallable => js "h.username.toLowerCase is not a function"
    | ExistsOfNullish => js "Cannot read properties of null (reading 'exists')"
    | URIMalformed => js "URI malformed"
    end;
  WORKER_URL := js "https://worker.example/check"
|}.

(** ** JSON values *)

Section Json.
Context {host : Host}.

#[local] Set Warnings "-register-all".

(** What [JSON.parse] can return.  The properties of an object are kept in
    creation order. *)
Inductive json :=
  | JNull
  | JBool (b : bool)
  | JNum (n : number)
  | JStr (s : jsstring)
  | JArr (items : list json)
  | JObj (props : list (jsstring * json)).

(** Property read [o.k] on an ordinary object: [None] is [undefined]. *)
Fixpoint get_prop (k : jsstring) (props : list (jsstring * json)) : option json :=
  match props with
  | [] => None
  | (k', v) :: rest => if jsstring_eqb k' k then Some v else get_prop k rest
  end.

(** [CreateDataProperty]: an existing property keeps its place. *)
Fixpoint set_prop (k : jsstring) (v : json) (props : list (jsstring * json))
  : list (jsstring * json) :=
  match props with
  | [] => [(k, v)]
  | (k', v') :: rest =>
    if jsstring_eqb k' k then (k', v) :: rest else (k', v') :: set_prop k v rest
  end.

(** *** JSON.stringify *)

Definition unicode_escape (c : N) : jsstring :=
  [92; 117; hex_digit_lower (c / 4096); hex_digit_lower ((c / 256) mod 16);
   hex_digit_lower ((c / 16) mod 16); hex_digit_lower (c mod 16)].

(** [QuoteJSONString] without the surrounding quotes: the string is read by
    code points, so a surrogate pair passes and a lone surrogate is
    escaped. *)
Fixpoint quote_units (s : jsstring) : jsstring :=
  match s with
  | [] => []
  | c :: s1 =>
    if c =? 8 then 92 :: 98 :: quote_units s1
    else if c =? 9 then 92 :: 116 :: quote_units s1
    else if c =? 10 then 92 :: 110 :: quote_units s1
    else if c =? 12 then 92 :: 102 :: quote_units s1
    else if c =? 13 then 92 :: 114 :: quote_units s1
    else if c =? 34 then 92 :: 34 :: quote_units s1
    else if c =? 92 then 92 :: 92 :: quote_units s1
    else if c <? 32 then unicode_escape c ++ quote_units s1
    else if is_high_surrogate c then
      match s1 with
      | d :: s2 =>
        if is_low_surrogate d then c :: d :: quote_units s2
        else unicode_escape c ++ quote_units s1
      | [] => unicode_escape c
      end
    else if is_low_surrogate c then unicode_escape c ++ quote_units s1
    else c :: quote_units s1
  end.

Definition quote (s : jsstring) : jsstring := 34 :: quote_units s ++ [34].

Fixpoint join_comma (parts : list jsstring) : jsstring :=
  match parts with
  | [] => []
  | [p] => p
  | p :: rest => p ++ 44 :: join_comma rest
  end.

(** An array index: the canonical numeric string of an integer below
    [2^32 - 1]. *)
Fixpoint digits_value (acc : N) (s : jsstring) : option N :=
  match s with
  | [] => Some acc
  | c :: s' => if between 48 57 c then digits_value (acc * 10 + (c - 48)) s' else None
  end.

Definition array_index (k : jsstring) : option N :=
  match k with
  | [] => None
  | c :: rest =>
    if (c =? 48) && negb (match rest with [] => true | _ => false end) then None
    else match digits_value 0 k with
         | Some n => if n <? 4294967295 then Some n else None
         | None => None
         end
  end.

Fixpoint insert_index {A} (n : N) (p : jsstring * A) (sorted : list (N * (jsstring * A)))
  : list (N * (jsstring * A)) :=
  match sorted with
  | [] => [(n, p)]
  | (m, q) :: rest =>
    if n <? m then (n, p) :: sorted else (m, q) :: insert_index n p rest
  end.

Fixpoint index_props {A} (props : list (jsstring * A)) : list (N * (jsstring * A)) :=
  match props with
  | [] => []
  | p :: rest =>
    match array_index (fst p) with
    | Some n => insert_index n p (index_props rest)
    | None => index_props rest
    end
  end.

Definition is_array_index (k : jsstring) : bool :=
  match array_index k with Some _ => true | None => false end.

(** [OrdinaryOwnPropertyKeys]: array indices ascending, then the other keys
    in creation order. *)
Definition own_property_order {A} (props : list (jsstring * A)) : list (jsstring * A) :=
  map snd (index_props props)
  ++ filter (fun p => negb (is_array_index (fst p))) props.

Definition member_text (p : jsstring * jsstring) : jsstring :=
  quote (fst p) ++ 58 :: snd p.

Fixpoint stringify (v : json) : jsstring :=
  match v with
  | JNull => js "null"
  | JBool true => js "true"
  | JBool false => js "false"
  | JNum n => number_to_string n
  | JStr s => quote s
  | JArr items => 91 :: join_comma (map stringify items) ++ [93]
  | JObj props =>
    123 :: join_comma
             (map member_text
                (own_property_order
                   (map (fun p => (fst p, stringify (snd p))) props)))
        ++ [125]
  end.

Definition JSON_stringify (v : json) : jsstring := stringify v.

(** *** JSON.parse *)

Definition is_json_ws (c : N) : bool :=
  (c =? 32) || (c =? 9) || (c =? 10) || (c =? 13).

Fixpoint skip_ws (s : jsstring) : jsstring :=
  match s with
  | [] => []
  | c :: s' => if is_json_ws c then skip_ws s' else s
  end.

Definition simple_escape (e : N) : option N :=
  if e =? 34 then Some 34
  else if e =? 92 then Some 92
  else if e =? 47 then Some 47
  else if e =? 98 then Some 8
  else if e =? 102 then Some 12
  else if e =? 110 then Some 10
  else if e =? 114 then Some 13
  else if e =? 116 then Some 9
  else None.

Definition hex4 (h1 h2 h3 h4 : N) : option N :=
  match hex_value h1, hex_value h2, hex_value h3, hex_value h4 with
  | Some a, Some b, Some c, Some d => Some (((a * 16 + b) * 16 + c) * 16 + d)
  | _, _, _, _ => None
  end.

Definition cons_unit (u : N) (r : option (jsstring * jsstring))
  : option (jsstring * jsstring) :=
  match r with
  | Some (str, rest) => Some (u :: str, rest)
  | None => None
  end.

(** The characters of a string literal after its opening quote, up to and
    including the closing quote. *)
Fixpoint parse_chars (s : jsstring) : option (jsstring * jsstring) :=
  match s with
  | [] => None
  | c :: s1 =>
    if c =? 34 then Some ([], s1)
    else if c =? 92 then
      match s1 with
      | [] => None
      | e :: s2 =>
        if e =? 117 then
          match s2 with
          | h1 :: h2 :: h3 :: h4 :: s3 =>
            match hex4 h1 h2 h3 h4 with
            | Some u => cons_unit u (parse_chars s3)
            | None => None
            end
          | _ => None
          end
        else
          match simple_escape e with
          | Some u => cons_unit u (parse_chars s2)
          | None => None
          end
      end
    else if c <? 32 then None
    else cons_unit c (parse_chars s1)
  end.

Fixpoint span_digits (s : jsstring) : jsstring * jsstring :=
  match s with
  | [] => ([], [])
  | c :: s' =>
    if between 48 57 c then let (ds, r) := span_digits s' in (c :: ds, r)
    else ([], s)
  end.

(** A JSON number: an optional minus, an integer part without a leading
    zero, an optional fraction and an optional exponent, each with at least
    one digit. *)
Definition lex_int (s : jsstring) : option (jsstring * jsstring) :=
  match s with
  | [] => None
  | c :: s1 =>
    if c =? 48 then Some ([48], s1)
    else if between 49 57 c then let (ds, r) := span_digits s1 in Some (c :: ds, r)
    else None
  end.

Definition lex_frac (s : jsstring) : option (jsstring * jsstring) :=
  match s with
  | c :: s1 =>
    if c =? 46 then
      match span_digits s1 with
      | ([], _) => None
      | (ds, r) => Some (c :: ds, r)
      end
    else Some ([], s)
  | [] => Some ([], s)
  end.

Definition lex_exp (s : jsstring) : option (jsstring * jsstring) :=
  match s with
  | c :: s1 =>
    if (c =? 101) || (c =? 69) then
      let (sign, s2) :=
        match s1 with
        | d :: s2 => if (d =? 43) || (d =? 45) then ([d], s2) else ([], s1)
        | [] => ([], s1)
        end in
      match span_digits s2 with
      | ([], _) => None
      | (ds, r) => Some (c :: sign ++ ds, r)
      end
    else Some ([], s)
  | [] => Some ([], s)
  end.

Definition lex_number (s : jsstring) : option (jsstring * jsstring) :=
  let (sign, s1) :=
    match s with
    | c :: s' => if c =? 45 then ([c], s') else ([], s)
    | [] => ([], s)
    end in
  match lex_int s1 with
  | None => None
  | Some (i, s2) =>
    match lex_frac s2 with
    | None => None
    | Some (f, s3) =>
      match lex_exp s3 with
      | None => None
      | Some (e, s4) => Some (sign ++ i ++ f ++ e, s4)
      end
    end
  end.

Fixpoint strip_prefix (p s : jsstring) : option jsstring :=
  match p, s with
  | [], _ => Some s
  | x :: p', y :: s' => if x =? y then strip_prefix p' s' else None
  | _ :: _, [] => None
  end.

Definition object_of_members (ms : list (jsstring * json)) : json :=
  JObj (fold_left (fun props m => set_prop (fst m) (snd m) props) ms []).

Definition parse_scalar (s : jsstring) : parsed json :=
  match s with
  | [] => Malformed
  | c :: s1 =>
    if c =? 34 then
      match parse_chars s1 with
      | Some (str, r) => Parsed (JStr str) r
      | None => Malformed
      end
    else
      match strip_prefix (js "true") s with
      | Some r => Parsed (JBool true) r
      | None =>
        match strip_prefix (js "false") s with
        | Some r => Parsed (JBool false) r
        | None =>
          match strip_prefix (js "null") s with
          | Some r => Parsed JNull r
          | None =>
            match lex_number s with
            | Some (lexeme, r) => Parsed (JNum (parse_number lexeme)) r
            | None => Malformed
            end
          end
        end
      end
  end.

(** Recursive descent over the JSON grammar; [fuel] bounds the depth of the
    calls. *)
Fixpoint parse_value (fuel : nat) (s : jsstring) : parsed json :=
  match fuel with
  | O => OutOfFuel
  | S f =>
    match skip_ws s with
    | [] => Malformed
    | c :: s1 =>
      if c =? 91 then
        match skip_ws s1 with
        | d :: s2 =>
          if d =? 93 then Parsed (JArr []) s2
          else bind (parse_elements f s1) (fun vs r => Parsed (JArr vs) r)
        | [] => Malformed
        end
      else if c =? 123 then
        match skip_ws s1 with
        | d :: s2 =>
          if d =? 125 then Parsed (JObj []) s2
          else bind (parse_members f s1) (fun ms r => Parsed (object_of_members ms) r)
        | [] => Malformed
        end
      else parse_scalar (c :: s1)
    end
  end

with parse_elements (fuel : nat) (s : jsstring) : parsed (list json) :=
  match fuel with
  | O => OutOfFuel
  | S f =>
    bind (parse_value f s) (fun v r =>
      match skip_ws r with
      | c :: r1 =>
        if c =? 44 then bind (parse_elements f r1) (fun vs r2 => Parsed (v :: vs) r2)
        else if c =? 93 then Parsed [v] r1
        else Malformed
      | [] => Malformed
      end)
  end

with parse_members (fuel : nat) (s : jsstring) : parsed (list (jsstring * json)) :=
  match fuel with
  | O => OutOfFuel
  | S f =>
    match skip_ws s with
    | q :: s1 =>
      if q =? 34 then
        match parse_chars s1 with
        | Some (k, r) =>
          match skip_ws r with
          | c :: r1 =>
            if c =? 58 then
              bind (parse_value f r1) (fun v r2 =>
                match skip_ws r2 with
                | d :: r3 =>
                  if d =? 44 then
                    bind (parse_members f r3) (fun ms r4 => Parsed ((k, v) :: ms) r4)
                  else if d =? 125 then Parsed [(k, v)] r3
                  else Malformed
                | [] => Malformed
                end)
            else Malformed
          | [] => Malformed
          end
        | None => Malformed
        end
      else Malformed
    | [] => Malformed
    end
  end.

(** What follows a value inside an array, and inside an object. *)
Definition elements_tail (f : nat) (v : json) (r : jsstring) : parsed (list json) :=
  match skip_ws r with
  | c :: r1 =>
    if c =? 44 then bind (parse_elements f r1) (fun vs r2 => Parsed (v :: vs) r2)
    else if c =? 93 then Parsed [v] r1
    else Malformed
  | [] => Malformed
  end.

Definition members_tail (f : nat) (k : jsstring) (v : json) (r2 : jsstring)
  : parsed (list (jsstring * json)) :=
  match skip_ws r2 with
  | d :: r3 =>
    if d =? 44 then bind (parse_members f r3) (fun ms r4 => Parsed ((k, v) :: ms) r4)
    else if d =? 125 then Parsed [(k, v)] r3
    else Malformed
  | [] => Malformed
  end.

(** [JSON.parse]: [None] is the [SyntaxError]. *)
Definition JSON_parse (text : jsstring) : option json :=
  match parse_value (S (2 * length text)) text with
  | Parsed v rest =>
    match skip_ws rest with
    | [] => Some v
    | _ :: _ => None
    end
  | Malformed => None
  | OutOfFuel => None
  end.

End Json.

(** ** The application *)

Section App.
Context {host : Host}.

Definition MAX_HISTORY : nat := 5.

Record CheckResult := {
  username : jsstring;
  available : bool;
  checkedAt : jsstring
}.

(** The object literal a [CheckResult] is built as. *)
Definition entry_json (e : CheckResult) : json :=
  JObj [(js "username", JStr (username e));
        (js "available", JBool (available e));
        (js "checkedAt", JStr (checkedAt e))].

(** The value kept under [HISTORY_KEY] in [localStorage], [None] when the
    key is absent.  The application touches no other key. *)
Definition storage := option jsstring.

Definition loadHistory (store : storage) : json :=
  match JSON_parse (match store with Some text => text | None => js "[]" end) with
  | Some v => v
  | None => JArr []
  end.

(** [h.username.toLowerCase()] for an element [h] of the loaded history.
    A number, a boolean, a string and an array have no [username], as an
    object without that property. *)
Definition username_lower (h : json) : completion jsstring :=
  match h with
  | JNull => Throw UsernameOfNullish
  | JObj props =>
    match get_prop (js "username") props with
    | Some (JStr s) => Normal (toLowerCase s)
    | Some JNull => Throw ToLowerCaseOfNull
    | Some _ => Throw ToLowerCaseNotCallable
    | None => Throw ToLowerCaseOfUndefined
    end
  | _ => Throw ToLowerCaseOfUndefined
  end.

(** [history.filter(h => h.username.toLowerCase() !== key)], elements
    visited in index order. *)
Fixpoint filter_history (key : jsstring) (history : list json) : completion (list json) :=
  match history with
  | [] => Normal []
  | h :: rest =>
    match username_lower h with
    | Throw e => Throw e
    | Normal u =>
      match filter_history key rest with
      | Throw e => Throw e
      | Normal kept => Normal (if jsstring_eqb u key then kept else h :: kept)
      end
    end
  end.

Definition saveToHistory (entry : CheckResult) (store : storage)
  : completion (list json * storage) :=
  match loadHistory store with
  | JArr history =>
    match filter_history (toLowerCase (username entry)) history with
    | Throw e => Throw e
    | Normal filtered =>
      let updated := firstn MAX_HISTORY (entry_json entry :: filtered) in
      Normal (updated, Some (JSON_stringify (JArr updated)))
    end
  | JNull => Throw FilterOfNull
  | _ => Throw FilterNotCallable
  end.

(** *** The validator *)

Definition word_class (c : N) : bool :=
  between 97 122 c || between 65 90 c || between 48 57 c || (c =? 95).

Definition at_end (s : jsstring) : bool :=
  match s with [] => true | _ :: _ => false end.

(** The matcher of a pattern [^C{min,max}$] from its start: either the
    quantifier takes one more unit of the class, or, once [min] units are
    taken, the end of the input is required. *)
Fixpoint match_repeat (cls : N -> bool) (min max : nat) (s : jsstring) : bool :=
  match max with
  | O => Nat.eqb min 0 && at_end s
  | S max' =>
    match s with
    | c :: s' =>
      (cls c && match_repeat cls (Nat.pred min) max' s')
      || (Nat.eqb min 0 && at_end s)
    | [] => Nat.eqb min 0
    end
  end.

Definition isValidUsername (name : jsstring) : bool :=
  match_repeat word_class 4 25 name.

(** *** The component state and the check *)

Definition VALIDATION_MESSAGE : jsstring :=
  js "Usernames must be 4" ++ 8211 :: js "25 characters: letters, numbers, and underscores only.".

Definition NETWORK_MESSAGE : jsstring :=
  js "Network error " ++ 8212 :: js " check your connection and try again.".

Record State := {
  s_username : jsstring;
  s_result : option CheckResult;
  s_loading : bool;
  s_error : option jsstring;
  s_history : json;
  localStorage : storage
}.

Definition setResult (r : option CheckResult) (s : State) : State :=
  {| s_username := s_username s; s_result := r; s_loading := s_loading s;
     s_error := s_error s; s_history := s_history s; localStorage := localStorage s |}.

Definition setLoading (b : bool) (s : State) : State :=
  {| s_username := s_username s; s_result := s_result s; s_loading := b;
     s_error := s_error s; s_history := s_history s; localStorage := localStorage s |}.

Definition setError (e : option jsstring) (s : State) : State :=
  {| s_username := s_username s; s_result := s_result s; s_loading := s_loading s;
     s_error := e; s_history := s_history s; localStorage := localStorage s |}.

Definition setHistory (h : json) (s : State) : State :=
  {| s_username := s_username s; s_result := s_result s; s_loading := s_loading s;
     s_error := s_error s; s_history := h; localStorage := localStorage s |}.

Definition setStorage (store : storage) (s : State) : State :=
  {| s_username := s_username s; s_result := s_result s; s_loading := s_loading s;
     s_error := s_error s; s_history := s_history s; localStorage := store |}.

(** A value that reaches the [catch] clause. *)
Inductive thrown :=
  | ErrorInstance (message : jsstring)
  | NotAnError.

(** How the body of a response and the request itself settle. *)
Inductive body_settlement :=
  | JsonRejected (reason : thrown)
  | JsonValue (data : json).

Inductive fetch_settlement :=
  | FetchRejected (reason : thrown)
  | FetchResponse (status : N) (body : body_settlement).

(** [res.ok] *)
Definition ok (status : N) : bool := between 200 299 status.

(** [ToBoolean] of a property read, [None] being [undefined]. *)
Definition truthy (v : option json) : bool :=
  match v with
  | None => false
  | Some JNull => false
  | Some (JBool b) => b
  | Some (JNum n) => number_truthy n
  | Some (JStr s) => negb (at_end s)
  | Some (JArr _) => true
  | Some (JObj _) => true
  end.

(** [data.exists] *)
Definition read_exists (data : json) : completion (option json) :=
  match data with
  | JNull => Throw ExistsOfNullish
  | JObj props => Normal (get_prop (js "exists") props)
  | _ => Normal None
  end.

(** The [catch] clause followed by [finally]. *)
Definition catch (err : thrown) (s : State) : State :=
  setLoading false
    (setError (Some (match err with
                     | ErrorInstance message => message
                     | NotAnError => NETWORK_MESSAGE
                     end)) s).

(** The rest of the [try] block once [fetch] has settled; [now] is
    [new Date().toISOString()]. *)
Definition after_fetch (trimmed : jsstring) (s : State)
  (res : fetch_settlement) (now : jsstring) : State :=
  match res with
  | FetchRejected reason => catch reason s
  | FetchResponse status body =>
    if negb (ok status) then
      catch (ErrorInstance (js "API error: " ++ decimal status)) s
    else
      match body with
      | JsonRejected reason => catch reason s
      | JsonValue data =>
        match read_exists data with
        | Throw e => catch (ErrorInstance (native_message e)) s
        | Normal exists_ =>
          let entry := {| username := trimmed;
                          available := negb (truthy exists_);
                          checkedAt := now |} in
          let s1 := setResult (Some entry) s in
          match saveToHistory entry (localStorage s1) with
          | Throw e => catch (ErrorInstance (native_message e)) s1
          | Normal (updated, store) =>
            setLoading false (setHistory (JArr updated) (setStorage store s1))
          end
        end
      end
  end.

(** What a call of [checkUsername] does: it returns at once, or it issues
    one request and goes on when the request settles. *)
Inductive step :=
  | Return (s : State)
  | Await (url : jsstring) (pending : State)
          (resume : fetch_settlement -> jsstring -> State).

(** [nameOverride ?? username] *)
Definition name_or_input (nameOverride : option jsstring) (s : State) : jsstring :=
  match nameOverride with Some name => name | None => s_username s end.

Definition checkUsername (nameOverride : option jsstring) (s : State) : step :=
  let trimmed := trim (name_or_input nameOverride s) in
  if at_end trimmed then Return s
  else if negb (isValidUsername trimmed) then
    Return (setResult None (setError (Some VALIDATION_MESSAGE) s))
  else
    let s1 := setResult None (setError None (setLoading true s)) in
    match encodeURIComponent trimmed with
    | None => Return (catch (ErrorInstance (native_message URIMalformed)) s1)
    | Some query =>
      Await (WORKER_URL ++ js "?login=" ++ query) s1 (after_fetch trimmed s1)
    end.

(** *** The text of a persisted history *)

Definition bool_text (b : bool) : jsstring := if b then js "true" else js "false".

Definition entry_text (e : CheckResult) : jsstring :=
  123 :: quote (js "username") ++ 58 :: quote (username e)
   ++ 44 :: quote (js "available") ++ 58 :: bool_text (available e)
   ++ 44 :: quote (js "checkedAt") ++ 58 :: quote (checkedAt e) ++ [125].

Definition history_text (l : list CheckResult) : jsstring :=
  91 :: join_comma (map entry_text l) ++ [93].

(** The key two entries are compared by, the entries of a list that
    [saveToHistory] keeps, the list it builds, and a run of calls of
    [saveToHistory]. *)
Definition key (h : CheckResult) : jsstring := toLowerCase (username h).

Definition filtered (entry : CheckResult) (history : list CheckResult) : list CheckResult :=
  filter (fun h => negb (jsstring_eqb (key h) (key entry))) history.

Definition updated (entry : CheckResult) (history : list CheckResult) : list CheckResult :=
  firstn MAX_HISTORY (entry :: filtered entry history).

Fixpoint appends (entries : list CheckResult) (store : storage) : completion storage :=
  match entries with
  | [] => Normal store
  | e :: rest =>
    match saveToHistory e store with
    | Normal (_, store') => appends rest store'
    | Throw err => Throw err
    end
  end.

(** The state the component starts in. *)
Definition initial : State :=
  {| s_username := []; s_result := None; s_loading := false; s_error := None;
     s_history := JArr []; localStorage := None |}.

(** The state when the component has mounted, and [clearHistory]. *)
Definition mount (s : State) : State := setHistory (loadHistory (localStorage s)) s.

Definition clearHistory (s : State) : State := setHistory (JArr []) (setStorage None s).

(** *** The rule and the message as the specification words them *)

(** An ASCII letter, a digit or an underscore. *)
Definition ascii_word (c : N) : Prop :=
  65 <= c <= 90 \/ 97 <= c <= 122 \/ 48 <= c <= 57 \/ c = 95.

(** The rule of the specification on the trimmed string: nothing but ASCII
    letters, digits and underscores, and a length from 4 to 25. *)
Definition acceptable_identifier (trimmed : jsstring) : Prop :=
  Forall ascii_word trimmed /\ (4 <= length trimmed <= 25)%nat.

(** The explanation the specification quotes for a rejected input. *)
Definition SPEC_VALIDATION_MESSAGE : jsstring :=
  js "identifiers must be 4" ++ 8211 :: js "25 characters: letters, numbers, and underscores only".

End App.

(** ** Sample values *)

Definition time1 : jsstring := js "2024-05-01T10:00:00.000Z".
Definition time2 : jsstring := js "2024-05-01T10:05:00.000Z".

Definition shroud_taken : CheckResult :=
  {| username := js "shroud"; available := false; checkedAt := time1 |}.

Definition SHROUD_free : CheckResult :=
  {| username := js "SHROUD"; available := true; checkedAt := time2 |}.

Definition sample (name : String.string) : CheckResult :=
  {| username := js name; available := true; checkedAt := time1 |}.
Arguments sample name%_str.

(** ** The handlers of the component and the events of a session *)

Section Events.
Context {host : Host}.

Definition setUsername (value : jsstring) (s : State) : State :=
  {| s_username := value; s_result := s_result s; s_loading := s_loading s;
     s_error := s_error s; s_history := s_history s; localStorage := localStorage s |}.

(** [onChange] of the input. *)
Definition handleChange (value : jsstring) (s : State) : State :=
  setError None (setResult None (setUsername value s)).

Definition handleKeyDown (pressed : jsstring) (s : State) : step :=
  if jsstring_eqb pressed (js "Enter") then checkUsername None s else Return s.

Definition handleHistoryClick (h : CheckResult) (s : State) : step :=
  checkUsername (Some (username h)) (setUsername (username h) s).

(** [disabled] of the button, and its [onClick], which a disabled button
    does not fire. *)
Definition button_disabled (s : State) : bool :=
  s_loading s || at_end (trim (s_username s)).

Definition clickCheck (s : State) : step :=
  if button_disabled s then Return s else checkUsername None s.

(** The two banners: [error && ...] and [result && !error && ...]; an empty
    string is falsy. *)
Definition error_shown (s : State) : bool :=
  match s_error s with
  | Some message => negb (at_end message)
  | None => false
  end.

Definition result_shown (s : State) : bool :=
  match s_result s with
  | Some _ => negb (error_shown s)
  | None => false
  end.

(** An element that [history.filter] of [saveToHistory] reads without an
    error: an object whose [username] is a string. *)
Definition has_username (h : json) : bool :=
  match h with
  | JObj props =>
    match get_prop (js "username") props with
    | Some (JStr _) => true
    | _ => false
    end
  | _ => false
  end.

(** The URL [checkUsername] requests for a valid name. *)
Definition request_url (name : jsstring) : jsstring :=
  WORKER_URL ++ js "?login=" ++ name.

(** A session: the component state, the names of the requests that have
    not settled yet, in the order they were issued, and the URLs requested
    so far. *)
Record running := {
  ui : State;
  inflight : list jsstring;
  requests : list jsstring
}.

Inductive action :=
  | Change (value : jsstring)
  | KeyDown (pressed : jsstring)
  | ClickCheck
  | HistoryClick (h : CheckResult)
  | ClickClear
  | Settle (i : nat) (res : fetch_settlement) (now : jsstring).

Fixpoint remove_nth {A} (i : nat) (l : list A) : list A :=
  match l, i with
  | [], _ => []
  | _ :: rest, O => rest
  | x :: rest, S j => x :: remove_nth j rest
  end.

(** A handler that calls [checkUsername] for the trimmed name [trimmed]:
    the state changes at once, and a request, if one is issued, stays in
    flight. *)
Definition perform (st : step) (trimmed : jsstring) (a : running) : running :=
  match st with
  | Return s => {| ui := s; inflight := inflight a; requests := requests a |}
  | Await url pending _ =>
    {| ui := pending; inflight := inflight a ++ [trimmed];
       requests := requests a ++ [url] |}
  end.

(** One event.  When a request settles, the rest of [checkUsername] runs
    on the state of that moment: its setters and [saveToHistory] act on the
    current state and store, and only [trimmed] is remembered from the
    call. *)
Definition react (act : action) (a : running) : running :=
  match act with
  | Change value =>
    {| ui := handleChange value (ui a); inflight := inflight a; requests := requests a |}
  | KeyDown pressed => perform (handleKeyDown pressed (ui a)) (trim (s_username (ui a))) a
  | ClickCheck => perform (clickCheck (ui a)) (trim (s_username (ui a))) a
  | HistoryClick h => perform (handleHistoryClick h (ui a)) (trim (username h)) a
  | ClickClear =>
    {| ui := clearHistory (ui a); inflight := inflight a; requests := requests a |}
  | Settle i res now =>
    match nth_error (inflight a) i with
    | Some trimmed =>
      {| ui := after_fetch trimmed (ui a) res now;
         inflight := remove_nth i (inflight a); requests := requests a |}
    | None => a
    end
  end.

Definition session (acts : list action) (a : running) : running :=
  fold_left (fun a act => react act a) acts a.

(** The component once mounted over a store. *)
Definition boot (store : storage) : running :=
  {| ui := mount (setStorage store initial); inflight := []; requests := [] |}.

(** A history as the component itself builds it. *)
Definition wellformed_history (l : list CheckResult) : Prop :=
  (length l <= MAX_HISTORY)%nat
  /\ NoDup (map key l)
  /\ Forall (fun h => acceptable_identifier (username h)) l.

Definition consistent (s : State) : Prop :=
  exists l, s_history s = JArr (map entry_json l)
            /\ loadHistory (localStorage s) = JArr (map entry_json l)
            /\ wellformed_history l.

(** Names in flight and names in the history have been requested. *)
Definition looked_up (a : running) : Prop :=
  (forall t, In t (inflight a) -> In (request_url t) (requests a))
  /\ forall l, s_history (ui a) = JArr (map entry_json l) ->
       forall h, In h l -> In (request_url (username h)) (requests a).

End Events.

(** ** A sample session and a sample store *)

Section SampleSession.
#[local] Existing Instance ascii_host.

Definition sample_events : list action :=
  [Change (js "shroud"); ClickCheck; Change (js " ninja_99 "); KeyDown (js "Enter");
   Settle 1 (FetchResponse 200 (JsonValue (JObj [(js "exists", JBool false)]))) time2;
   Settle 0 (FetchResponse 200 (JsonValue (JObj [(js "exists", JBool true)]))) time1;
   HistoryClick shroud_taken].

Definition shroud_store : storage :=
  Some (JSON_stringify (JArr (map entry_json [sample "other"; shroud_taken]))).

End SampleSession.

(** * Properties *)

(** ** Strings *)

Lemma jsstring_eqb_eq (a b : jsstring) : jsstring_eqb a b = true <-> a = b.
Proof.
  revert b; induction a as [|x a IH]; intros [|y b]; simpl; split;
    try congruence; try discriminate; auto.
  - rewrite andb_true_iff, N.eqb_eq, IH. intros [-> ->]; reflexivity.
  - intros E; injection E as -> ->. now rewrite N.eqb_refl, (proj2 (IH b) eq_refl).
Qed.

Lemma jsstring_eqb_refl (a : jsstring) : jsstring_eqb a a = true.
Proof. now apply jsstring_eqb_eq. Qed.

Lemma jsstring_eqb_neq (a b : jsstring) : jsstring_eqb a b = false <-> a <> b.
Proof.
  rewrite <- jsstring_eqb_eq. destruct (jsstring_eqb a b); split; congruence.
Qed.

Lemma between_spec (lo hi c : N) : between lo hi c = true <-> lo <= c <= hi.
Proof. unfold between. rewrite andb_true_iff, !N.leb_le. tauto. Qed.

(** ** The JSON reader uses up its input and never lacks fuel *)

Section JsonFacts.
Context {host : Host}.

Ltac break_match :=
  match goal with
  | H : context [match ?x with _ => _ end] |- _ => destruct x eqn:?
  | |- context [match ?x with _ => _ end] => destruct x eqn:?
  end.

Lemma skip_ws_length (s : jsstring) : (length (skip_ws s) <= length s)%nat.
Proof.
  induction s as [|c s IH]; simpl; auto. destruct (is_json_ws c); simpl; lia.
Qed.

Lemma skip_ws_cons (s : jsstring) (c : N) (r : jsstring) :
  skip_ws s = c :: r -> (length r < length s)%nat.
Proof. intros E. pose proof (skip_ws_length s) as L. rewrite E in L. simpl in L. lia. Qed.

Lemma cons_unit_length (u : N) p (str r : jsstring) (n : nat) :
  cons_unit u p = Some (str, r) ->
  (forall str' r', p = Some (str', r') -> (length r' < n)%nat) ->
  (length r < n)%nat.
Proof.
  destruct p as [[str' r']|]; simpl; [|discriminate].
  intros E H; injection E as _ <-. eauto.
Qed.

Lemma parse_chars_length (n : nat) :
  forall s str r, (length s <= n)%nat ->
    parse_chars s = Some (str, r) -> (length r < length s)%nat.
Proof.
  induction n as [|n IH]; intros [|c s1] str r L; simpl in *; try discriminate; try lia.
  destruct (c =? 34).
  { intros E; injection E as _ <-. lia. }
  destruct (c =? 92).
  - destruct s1 as [|e s2]; [discriminate|]. simpl in L.
    destruct (e =? 117).
    + destruct s2 as [|h1 [|h2 [|h3 [|h4 s3]]]]; try discriminate.
      destruct (hex4 h1 h2 h3 h4); [|discriminate]. simpl in L.
      intros E. simpl. enough (length r < length s3)%nat by lia.
      eapply cons_unit_length; [exact E|]. intros; eapply IH; [|eassumption]. lia.
    + destruct (simple_escape e); [|discriminate].
      intros E. simpl. enough (length r < length s2)%nat by lia.
      eapply cons_unit_length; [exact E|]. intros; eapply IH; [|eassumption]. lia.
  - destruct (c <? 32); [discriminate|].
    intros E. enough (length r < length s1)%nat by lia.
    eapply cons_unit_length; [exact E|]. intros; eapply IH; [|eassumption]. lia.
Qed.

Lemma span_digits_length (s ds r : jsstring) :
  span_digits s = (ds, r) -> (length r <= length s)%nat.
Proof.
  revert ds r; induction s as [|c s IH]; simpl; intros ds r.
  - intros E; injection E as _ <-. auto.
  - destruct (between 48 57 c).
    + destruct (span_digits s) as [ds' r'] eqn:E'. intros E; injection E as _ <-.
      specialize (IH _ _ eq_refl). lia.
    + intros E; injection E as _ <-. simpl; lia.
Qed.

Lemma lex_int_length (s i r : jsstring) :
  lex_int s = Some (i, r) -> (length r < length s)%nat.
Proof.
  destruct s as [|c s1]; simpl; [discriminate|].
  destruct (c =? 48).
  { intros E; injection E as _ <-. lia. }
  destruct (between 49 57 c); [|discriminate].
  destruct (span_digits s1) as [ds r'] eqn:E'. intros E; injection E as _ <-.
  apply span_digits_length in E'. lia.
Qed.

Lemma lex_frac_length (s f r : jsstring) :
  lex_frac s = Some (f, r) -> (length r <= length s)%nat.
Proof.
  destruct s as [|c s1]; simpl.
  { intros E; injection E as _ <-. auto. }
  destruct (c =? 46).
  - destruct (span_digits s1) as [[|d ds] r'] eqn:E'; [discriminate|].
    intros E; injection E as _ <-. apply span_digits_length in E'. lia.
  - intros E; injection E as _ <-. simpl; lia.
Qed.

Lemma lex_exp_length (s e r : jsstring) :
  lex_exp s = Some (e, r) -> (length r <= length s)%nat.
Proof.
  destruct s as [|c s1]; simpl.
  { intros E; injection E as _ <-. auto. }
  destruct ((c =? 101) || (c =? 69)).
  - destruct s1 as [|d s2].
    + simpl. discriminate.
    + destruct ((d =? 43) || (d =? 45)).
      * destruct (span_digits s2) as [[|x ds] r'] eqn:E'; [discriminate|].
        intros E; injection E as _ <-. apply span_digits_length in E'. simpl; lia.
      * destruct (span_digits (d :: s2)) as [[|x ds] r'] eqn:E'; [discriminate|].
        intros E; injection E as _ <-. apply span_digits_length in E'. simpl in *; lia.
  - intros E; injection E as _ <-. simpl; lia.
Qed.

Lemma lex_number_length (s lexeme r : jsstring) :
  lex_number s = Some (lexeme, r) -> (length r < length s)%nat.
Proof.
  unfold lex_number.
  assert (H : forall s1, (length s1 <= length s)%nat ->
    match lex_int s1 with
    | Some (i, s2) =>
      match lex_frac s2 with
      | Some (f, s3) =>
        match lex_exp s3 with
        | Some (e, s4) => (length s4 < length s)%nat
        | None => True
        end
      | None => True
      end
    | None => True
    end).
  { intros s1 L. destruct (lex_int s1) as [[i s2]|] eqn:E1; auto.
    destruct (lex_frac s2) as [[f s3]|] eqn:E2; auto.
    destruct (lex_exp s3) as [[e s4]|] eqn:E3; auto.
    apply lex_int_length in E1. apply lex_frac_length in E2.
    apply lex_exp_length in E3. lia. }
  destruct s as [|c s'].
  - specialize (H [] (le_n _)). simpl in *.
    repeat break_match; try discriminate.
  - destruct (c =? 45).
    + specialize (H s' ltac:(simpl; lia)).
      repeat break_match; try discriminate. intros E; injection E as _ <-. exact H.
    + specialize (H (c :: s') (le_n _)).
      repeat break_match; try discriminate. intros E; injection E as _ <-. exact H.
Qed.

Lemma strip_prefix_length (p s r : jsstring) :
  strip_prefix p s = Some r -> (length r + length p = length s)%nat.
Proof.
  revert s; induction p as [|x p IH]; intros [|y s]; simpl; try discriminate.
  - intros E; injection E as <-. reflexivity.
  - intros E; injection E as <-. simpl; lia.
  - destruct (x =? y); [|discriminate]. intros E. apply IH in E. lia.
Qed.

Lemma parse_scalar_length (s : jsstring) (v : json) (r : jsstring) :
  parse_scalar s = Parsed v r -> (length r < length s)%nat.
Proof.
  unfold parse_scalar. destruct s as [|c s1]; [discriminate|].
  destruct (c =? 34).
  { destruct (parse_chars s1) as [[str r']|] eqn:E; [|discriminate].
    intros H; injection H as _ <-.
    apply (parse_chars_length (length s1)) in E; simpl; lia. }
  destruct (strip_prefix (js "true") (c :: s1)) eqn:E1.
  { intros H; injection H as _ <-. apply strip_prefix_length in E1. simpl in *; lia. }
  destruct (strip_prefix (js "false") (c :: s1)) eqn:E2.
  { intros H; injection H as _ <-. apply strip_prefix_length in E2. simpl in *; lia. }
  destruct (strip_prefix (js "null") (c :: s1)) eqn:E3.
  { intros H; injection H as _ <-. apply strip_prefix_length in E3. simpl in *; lia. }
  destruct (lex_number (c :: s1)) as [[lexeme r']|] eqn:E4; [|discriminate].
  intros H; injection H as _ <-. now apply lex_number_length in E4.
Qed.

Lemma parse_scalar_fuel (s : jsstring) : parse_scalar s <> OutOfFuel.
Proof.
  unfold parse_scalar. repeat break_match; discriminate.
Qed.

Lemma parse_value_S (f : nat) (s : jsstring) :
  parse_value (S f) s =
  match skip_ws s with
  | [] => Malformed
  | c :: s1 =>
    if c =? 91 then
      match skip_ws s1 with
      | d :: s2 =>
        if d =? 93 then Parsed (JArr []) s2
        else bind (parse_elements f s1) (fun vs r => Parsed (JArr vs) r)
      | [] => Malformed
      end
    else if c =? 123 then
      match skip_ws s1 with
      | d :: s2 =>
        if d =? 125 then Parsed (JObj []) s2
        else bind (parse_members f s1) (fun ms r => Parsed (object_of_members ms) r)
      | [] => Malformed
      end
    else parse_scalar (c :: s1)
  end.
Proof. reflexivity. Qed.

Lemma parse_elements_S (f : nat) (s : jsstring) :
  parse_elements (S f) s = bind (parse_value f s) (elements_tail f).
Proof. reflexivity. Qed.

Lemma parse_members_S (f : nat) (s : jsstring) :
  parse_members (S f) s =
  match skip_ws s with
  | q :: s1 =>
    if q =? 34 then
      match parse_chars s1 with
      | Some (k, r) =>
        match skip_ws r with
        | c :: r1 =>
          if c =? 58 then bind (parse_value f r1) (members_tail f k) else Malformed
        | [] => Malformed
        end
      | None => Malformed
      end
    else Malformed
  | [] => Malformed
  end.
Proof. reflexivity. Qed.

Lemma bind_Parsed {A B} (p : parsed A) (k : A -> jsstring -> parsed B) b r :
  bind p k = Parsed b r -> exists a r', p = Parsed a r' /\ k a r' = Parsed b r.
Proof. destruct p; simpl; try discriminate. eauto. Qed.

Lemma bind_fuel {A B} (p : parsed A) (k : A -> jsstring -> parsed B) :
  bind p k <> OutOfFuel ->
  p <> OutOfFuel /\ forall a r, p = Parsed a r -> k a r <> OutOfFuel.
Proof.
  destruct p; simpl; intros H; split; congruence.
Qed.

(** Every construct read is at least one code unit long. *)
Lemma parse_length (f : nat) :
  (forall s v r, parse_value f s = Parsed v r -> (length r < length s)%nat)
  /\ (forall s vs r, parse_elements f s = Parsed vs r -> (length r < length s)%nat)
  /\ (forall s ms r, parse_members f s = Parsed ms r -> (length r < length s)%nat).
Proof.
  induction f as [|f (IHv & IHe & IHm)]; [repeat split; discriminate|].
  repeat split.
  - intros s v r. rewrite parse_value_S.
    destruct (skip_ws s) as [|c s1] eqn:Es; [discriminate|].
    apply skip_ws_cons in Es.
    destruct (c =? 91); [|destruct (c =? 123)].
    + destruct (skip_ws s1) as [|d s2] eqn:Es1; [discriminate|].
      apply skip_ws_cons in Es1. destruct (d =? 93).
      * intros E; injection E as _ <-. lia.
      * intros E. apply bind_Parsed in E as (vs & r' & E1 & E2).
        injection E2 as _ <-. apply IHe in E1. lia.
    + destruct (skip_ws s1) as [|d s2] eqn:Es1; [discriminate|].
      apply skip_ws_cons in Es1. destruct (d =? 125).
      * intros E; injection E as _ <-. lia.
      * intros E. apply bind_Parsed in E as (vs & r' & E1 & E2).
        injection E2 as _ <-. apply IHm in E1. lia.
    + intros E. apply parse_scalar_length in E. simpl in E. lia.
  - intros s vs r. rewrite parse_elements_S. intros E.
    apply bind_Parsed in E as (v & r' & E1 & E2). apply IHv in E1.
    unfold elements_tail in E2.
    destruct (skip_ws r') as [|c r1] eqn:Er; [discriminate|].
    apply skip_ws_cons in Er. destruct (c =? 44); [|destruct (c =? 93)].
    + apply bind_Parsed in E2 as (vs' & r2 & E3 & E4). injection E4 as _ <-.
      apply IHe in E3. lia.
    + injection E2 as _ <-. lia.
    + discriminate.
  - intros s ms r. rewrite parse_members_S.
    destruct (skip_ws s) as [|q s1] eqn:Es; [discriminate|].
    apply skip_ws_cons in Es. destruct (q =? 34); [|discriminate].
    destruct (parse_chars s1) as [[k r0]|] eqn:Ek; [|discriminate].
    apply (parse_chars_length (length s1)) in Ek; [|lia].
    destruct (skip_ws r0) as [|c r1] eqn:Er0; [discriminate|].
    apply skip_ws_cons in Er0. destruct (c =? 58); [|discriminate].
    intros E. apply bind_Parsed in E as (v & r2 & E1 & E2). apply IHv in E1.
    unfold members_tail in E2.
    destruct (skip_ws r2) as [|d r3] eqn:Er2; [discriminate|].
    apply skip_ws_cons in Er2. destruct (d =? 44); [|destruct (d =? 125)].
    + apply bind_Parsed in E2 as (ms' & r4 & E3 & E4). injection E4 as _ <-.
      apply IHm in E3. lia.
    + injection E2 as _ <-. lia.
    + discriminate.
Qed.

(** Fuel above twice the length of the text is never used up. *)
Lemma parse_fuel (f : nat) :
  (forall s, (2 * length s < f)%nat -> parse_value f s <> OutOfFuel)
  /\ (forall s, (2 * length s + 1 < f)%nat -> parse_elements f s <> OutOfFuel)
  /\ (forall s, (2 * length s + 1 < f)%nat -> parse_members f s <> OutOfFuel).
Proof.
  induction f as [|f (IHv & IHe & IHm)]; [repeat split; intros; lia|].
  destruct (parse_length f) as (Lv & Le & Lm).
  repeat split.
  - intros s L. rewrite parse_value_S.
    destruct (skip_ws s) as [|c s1] eqn:Es; [discriminate|].
    apply skip_ws_cons in Es.
    destruct (c =? 91); [|destruct (c =? 123)].
    + destruct (skip_ws s1) as [|d s2] eqn:Es1; [discriminate|].
      destruct (d =? 93); [discriminate|].
      specialize (IHe s1 ltac:(lia)).
      destruct (parse_elements f s1); simpl; congruence.
    + destruct (skip_ws s1) as [|d s2] eqn:Es1; [discriminate|].
      destruct (d =? 125); [discriminate|].
      specialize (IHm s1 ltac:(lia)).
      destruct (parse_members f s1); simpl; congruence.
    + apply parse_scalar_fuel.
  - intros s L. rewrite parse_elements_S.
    specialize (IHv s ltac:(lia)).
    destruct (parse_value f s) as [v r| |] eqn:Ev; simpl; try congruence.
    apply Lv in Ev. unfold elements_tail.
    destruct (skip_ws r) as [|c r1] eqn:Er; [discriminate|].
    apply skip_ws_cons in Er. destruct (c =? 44); [|destruct (c =? 93); discriminate].
    specialize (IHe r1 ltac:(lia)).
    destruct (parse_elements f r1); simpl; congruence.
  - intros s L. rewrite parse_members_S.
    destruct (skip_ws s) as [|q s1] eqn:Es; [discriminate|].
    apply skip_ws_cons in Es. destruct (q =? 34); [|discriminate].
    destruct (parse_chars s1) as [[k r0]|] eqn:Ek; [|discriminate].
    apply (parse_chars_length (length s1)) in Ek; [|lia].
    destruct (skip_ws r0) as [|c r1] eqn:Er0; [discriminate|].
    apply skip_ws_cons in Er0. destruct (c =? 58); [|discriminate].
    specialize (IHv r1 ltac:(lia)).
    destruct (parse_value f r1) as [v r2| |] eqn:Ev; simpl; try congruence.
    apply Lv in Ev. unfold members_tail.
    destruct (skip_ws r2) as [|d r3] eqn:Er2; [discriminate|].
    apply skip_ws_cons in Er2. destruct (d =? 44); [|destruct (d =? 125); discriminate].
    specialize (IHm r3 ltac:(lia)).
    destruct (parse_members f r3); simpl; congruence.
Qed.

(** A result reached with some fuel is the result with more fuel. *)
Lemma parse_fuel_S (f : nat) :
  (forall s, parse_value f s <> OutOfFuel -> parse_value (S f) s = parse_value f s)
  /\ (forall s, parse_elements f s <> OutOfFuel ->
       parse_elements (S f) s = parse_elements f s)
  /\ (forall s, parse_members f s <> OutOfFuel ->
       parse_members (S f) s = parse_members f s).
Proof.
  induction f as [|f (IHv & IHe & IHm)]; [repeat split; intros s H; now elim H|].
  repeat split.
  - intros s. rewrite (parse_value_S (S f)), (parse_value_S f).
    destruct (skip_ws s) as [|c s1]; [reflexivity|].
    destruct (c =? 91); [|destruct (c =? 123)]; [| |reflexivity].
    + destruct (skip_ws s1) as [|d s2]; [reflexivity|].
      destruct (d =? 93); [reflexivity|].
      intros H. apply bind_fuel in H as [H _]. now rewrite IHe.
    + destruct (skip_ws s1) as [|d s2]; [reflexivity|].
      destruct (d =? 125); [reflexivity|].
      intros H. apply bind_fuel in H as [H _]. now rewrite IHm.
  - intros s. rewrite (parse_elements_S (S f)), (parse_elements_S f).
    intros H. apply bind_fuel in H as [H1 H2]. rewrite (IHv _ H1).
    destruct (parse_value f s) as [v r| |]; simpl; try reflexivity.
    specialize (H2 v r eq_refl). unfold elements_tail in *.
    destruct (skip_ws r) as [|c r1]; [reflexivity|].
    destruct (c =? 44); [|reflexivity].
    apply bind_fuel in H2 as [H2 _]. now rewrite IHe.
  - intros s. rewrite (parse_members_S (S f)), (parse_members_S f).
    destruct (skip_ws s) as [|q s1]; [reflexivity|].
    destruct (q =? 34); [|reflexivity].
    destruct (parse_chars s1) as [[k r0]|]; [|reflexivity].
    destruct (skip_ws r0) as [|c r1]; [reflexivity|].
    destruct (c =? 58); [|reflexivity].
    intros H. apply bind_fuel in H as [H1 H2]. rewrite (IHv _ H1).
    destruct (parse_value f r1) as [v r2| |]; simpl; try reflexivity.
    specialize (H2 v r2 eq_refl). unfold members_tail in *.
    destruct (skip_ws r2) as [|d r3]; [reflexivity|].
    destruct (d =? 44); [|reflexivity].
    apply bind_fuel in H2 as [H2 _]. now rewrite IHm.
Qed.

Lemma parse_value_more_fuel (f g : nat) (s : jsstring) :
  (f <= g)%nat -> parse_value f s <> OutOfFuel -> parse_value g s = parse_value f s.
Proof.
  induction 1 as [|g L IH]; [reflexivity|]. intros H.
  rewrite <- (IH H). apply parse_fuel_S. now rewrite (IH H).
Qed.

(** The fuel [JSON_parse] gives is enough: the reader does not run out, and
    what the reader finds with any fuel is what [JSON_parse] returns. *)
Lemma JSON_parse_fuel (text : jsstring) :
  parse_value (S (2 * length text)) text <> OutOfFuel.
Proof. apply parse_fuel. lia. Qed.

Lemma JSON_parse_run (f : nat) (text : jsstring) (v : json) (rest : jsstring) :
  parse_value f text = Parsed v rest -> skip_ws rest = [] ->
  JSON_parse text = Some v.
Proof.
  intros E W. unfold JSON_parse.
  pose proof (proj1 (parse_fuel (S (2 * length text))) text ltac:(lia)) as F.
  assert (E' : parse_value (S (2 * length text)) text = Parsed v rest).
  { destruct (Nat.le_ge_cases f (S (2 * length text))) as [L|L].
    - rewrite (parse_value_more_fuel f _ text L); [exact E|]. now rewrite E.
    - rewrite <- (parse_value_more_fuel _ f text L F). exact E. }
  now rewrite E', W.
Qed.

(** ** Strings survive [JSON.stringify] followed by [JSON.parse] *)

Lemma hex_value_lower (d : N) : d < 16 -> hex_value (hex_digit_lower d) = Some d.
Proof.
  intros L. unfold hex_digit_lower, hex_value, between.
  destruct (N.ltb_spec d 10).
  - replace ((48 <=? 48 + d) && (48 + d <=? 57)) with true.
    + f_equal; lia.
    + symmetry. rewrite andb_true_iff, !N.leb_le. lia.
  - replace ((48 <=? 87 + d) && (87 + d <=? 57)) with false.
    + replace ((97 <=? 87 + d) && (87 + d <=? 102)) with true.
      * f_equal; lia.
      * symmetry. rewrite andb_true_iff, !N.leb_le. lia.
    + symmetry. rewrite andb_false_iff, !N.leb_gt. lia.
Qed.

Lemma hex_digits_value (c : N) :
  c < 65536 ->
  ((c / 4096 * 16 + (c / 256) mod 16) * 16 + (c / 16) mod 16) * 16 + c mod 16 = c.
Proof.
  intros L.
  replace (c / 4096) with (c / 16 / 16 / 16) by (now rewrite !N.Div0.div_div).
  replace (c / 256) with (c / 16 / 16) by (now rewrite !N.Div0.div_div).
  pose proof (N.div_mod c 16 ltac:(lia)) as E1.
  pose proof (N.div_mod (c / 16) 16 ltac:(lia)) as E2.
  pose proof (N.div_mod (c / 16 / 16) 16 ltac:(lia)) as E3.
  pose proof (N.mod_lt c 16 ltac:(lia)).
  pose proof (N.mod_lt (c / 16) 16 ltac:(lia)).
  pose proof (N.mod_lt (c / 16 / 16) 16 ltac:(lia)).
  assert (c / 16 / 16 / 16 < 16).
  { rewrite !N.Div0.div_div. apply N.Div0.div_lt_upper_bound. exact L. }
  generalize dependent (c / 16 / 16 / 16).
  generalize dependent ((c / 16 / 16) mod 16).
  generalize dependent (c / 16 / 16).
  generalize dependent ((c / 16) mod 16).
  generalize dependent (c / 16).
  generalize dependent (c mod 16). intros. lia.
Qed.

Lemma hex4_unicode_escape (c : N) :
  c < 65536 ->
  hex4 (hex_digit_lower (c / 4096)) (hex_digit_lower ((c / 256) mod 16))
       (hex_digit_lower ((c / 16) mod 16)) (hex_digit_lower (c mod 16)) = Some c.
Proof.
  intros L. unfold hex4.
  assert (c / 4096 < 16) by (apply N.Div0.div_lt_upper_bound; lia).
  rewrite !hex_value_lower by (try assumption; apply N.mod_lt; lia).
  f_equal. now apply hex_digits_value.
Qed.

Lemma parse_chars_escape (c : N) (s : jsstring) :
  c < 65536 ->
  parse_chars (unicode_escape c ++ s) = cons_unit c (parse_chars s).
Proof.
  intros L. unfold unicode_escape.
  change (parse_chars ([92; 117; hex_digit_lower (c / 4096);
            hex_digit_lower ((c / 256) mod 16); hex_digit_lower ((c / 16) mod 16);
            hex_digit_lower (c mod 16)] ++ s))
    with (match hex4 (hex_digit_lower (c / 4096)) (hex_digit_lower ((c / 256) mod 16))
                  (hex_digit_lower ((c / 16) mod 16)) (hex_digit_lower (c mod 16)) with
          | Some u => cons_unit u (parse_chars s)
          | None => None
          end).
  now rewrite hex4_unicode_escape.
Qed.

Lemma parse_chars_raw (c : N) (s : jsstring) :
  c <> 34 -> c <> 92 -> 32 <= c ->
  parse_chars (c :: s) = cons_unit c (parse_chars s).
Proof.
  intros H1 H2 H3. simpl.
  rewrite (proj2 (N.eqb_neq c 34) H1), (proj2 (N.eqb_neq c 92) H2).
  now rewrite (proj2 (N.ltb_ge c 32) H3).
Qed.

Lemma parse_chars_quote_units (n : nat) :
  forall s rest, (length s <= n)%nat ->
    parse_chars (quote_units s ++ 34 :: rest) = Some (s, rest).
Proof.
  induction n as [|n IH]; intros [|c s1] rest L; simpl in L; try reflexivity; try lia.
  assert (IH1 : parse_chars (quote_units s1 ++ 34 :: rest) = Some (s1, rest))
    by (apply IH; lia).
  unfold quote_units; fold quote_units.
  destruct (N.eqb_spec c 8) as [->|N8]; [simpl app; simpl; now rewrite IH1|].
  destruct (N.eqb_spec c 9) as [->|N9]; [simpl app; simpl; now rewrite IH1|].
  destruct (N.eqb_spec c 10) as [->|N10]; [simpl app; simpl; now rewrite IH1|].
  destruct (N.eqb_spec c 12) as [->|N12]; [simpl app; simpl; now rewrite IH1|].
  destruct (N.eqb_spec c 13) as [->|N13]; [simpl app; simpl; now rewrite IH1|].
  destruct (N.eqb_spec c 34) as [->|N34]; [simpl app; simpl; now rewrite IH1|].
  destruct (N.eqb_spec c 92) as [->|N92]; [simpl app; simpl; now rewrite IH1|].
  destruct (N.ltb_spec c 32) as [Lc|Lc].
  { rewrite <- app_assoc, parse_chars_escape, IH1 by lia. reflexivity. }
  unfold is_high_surrogate, is_low_surrogate.
  destruct (between 55296 56319 c) eqn:Hh.
  { apply between_spec in Hh.
    destruct s1 as [|d s2].
    - rewrite parse_chars_escape by lia. reflexivity.
    - destruct (between 56320 57343 d) eqn:Hl.
      + apply between_spec in Hl. simpl app.
        rewrite parse_chars_raw by lia. rewrite parse_chars_raw by lia.
        rewrite IH by (simpl in L; lia). reflexivity.
      + rewrite <- app_assoc, parse_chars_escape, IH1 by lia. reflexivity. }
  destruct (between 56320 57343 c) eqn:Hl.
  { apply between_spec in Hl.
    rewrite <- app_assoc, parse_chars_escape, IH1 by lia. reflexivity. }
  simpl app. rewrite parse_chars_raw, IH1 by assumption. reflexivity.
Qed.

Lemma parse_chars_quote (s rest : jsstring) :
  parse_chars (quote_units s ++ 34 :: rest) = Some (s, rest).
Proof. now apply (parse_chars_quote_units (length s)). Qed.

Lemma parse_value_string (f : nat) (s rest : jsstring) :
  parse_value (S f) (quote s ++ rest) = Parsed (JStr s) rest.
Proof.
  rewrite parse_value_S. unfold quote. simpl.
  rewrite <- app_assoc. cbn [app]. now rewrite (parse_chars_quote s rest).
Qed.

Lemma parse_value_bool (f : nat) (b : bool) (rest : jsstring) :
  parse_value (S f) (bool_text b ++ rest) = Parsed (JBool b) rest.
Proof.
  rewrite parse_value_S. destruct b; simpl; repeat rewrite N.eqb_refl; reflexivity.
Qed.

Lemma parse_members_member (f : nat) (k text : jsstring) :
  parse_members (S f) (quote k ++ 58 :: text) =
  bind (parse_value f text) (members_tail f k).
Proof.
  rewrite parse_members_S. unfold quote. simpl.
  rewrite <- app_assoc. cbn [app]. now rewrite (parse_chars_quote k (58 :: text)).
Qed.

(** ** A persisted history is read back as it was written *)

Lemma own_property_order_plain {A} (props : list (jsstring * A)) :
  forallb (fun p => negb (is_array_index (fst p))) props = true ->
  own_property_order props = props.
Proof.
  unfold own_property_order. intros H.
  assert (E : index_props props = []).
  { induction props as [|p props IH]; [reflexivity|]. simpl in H.
    apply andb_true_iff in H as [Hp H]. simpl. unfold is_array_index in Hp.
    destruct (array_index (fst p)); [discriminate|]. auto. }
  rewrite E. simpl. clear E.
  induction props as [|p props IH]; [reflexivity|]. simpl in *.
  apply andb_true_iff in H as [Hp H]. rewrite Hp. now rewrite IH.
Qed.

Lemma app_normal {A} (x : A) (a b : list A) : (x :: a) ++ b = x :: (a ++ b).
Proof. reflexivity. Qed.

Ltac normal_app := repeat (rewrite <- app_assoc || rewrite app_normal).

Lemma stringify_entry (e : CheckResult) : stringify (entry_json e) = entry_text e.
Proof.
  destruct e as [u a t]. unfold entry_text, entry_json.
  cbn [username available checkedAt].
  change (stringify (JObj [(js "username", JStr u); (js "available", JBool a);
                           (js "checkedAt", JStr t)]))
    with (123 :: join_comma (map member_text (own_property_order
            [(js "username", quote u); (js "available", stringify (JBool a));
             (js "checkedAt", quote t)])) ++ [125]).
  rewrite own_property_order_plain by reflexivity.
  replace (stringify (JBool a)) with (bool_text a) by (now destruct a).
  cbn [map join_comma member_text fst snd].
  normal_app. reflexivity.
Qed.

Lemma parse_value_object (f : nat) (k text : jsstring) :
  parse_value (S f) (123 :: quote k ++ text) =
  bind (parse_members f (quote k ++ text))
       (fun ms r => Parsed (object_of_members ms) r).
Proof. rewrite parse_value_S. reflexivity. Qed.

Lemma parse_value_array (f : nat) (text : jsstring) :
  parse_value (S f) (91 :: 123 :: text) =
  bind (parse_elements f (123 :: text)) (fun vs r => Parsed (JArr vs) r).
Proof. rewrite parse_value_S. reflexivity. Qed.

Lemma members_tail_comma (f : nat) (k : jsstring) (v : json) (text : jsstring) :
  members_tail f k v (44 :: text) =
  bind (parse_members f text) (fun ms r => Parsed ((k, v) :: ms) r).
Proof. reflexivity. Qed.

Lemma members_tail_close (f : nat) (k : jsstring) (v : json) (rest : jsstring) :
  members_tail f k v (125 :: rest) = Parsed [(k, v)] rest.
Proof. reflexivity. Qed.

Lemma elements_tail_comma (f : nat) (v : json) (text : jsstring) :
  elements_tail f v (44 :: text) =
  bind (parse_elements f text) (fun vs r => Parsed (v :: vs) r).
Proof. reflexivity. Qed.

Lemma elements_tail_close (f : nat) (v : json) (rest : jsstring) :
  elements_tail f v (93 :: rest) = Parsed [v] rest.
Proof. reflexivity. Qed.

Lemma parse_value_entry (f : nat) (e : CheckResult) (rest : jsstring) :
  parse_value (5 + f) (entry_text e ++ rest) = Parsed (entry_json e) rest.
Proof.
  change (5 + f)%nat with (S (S (S (S (S f))))).
  unfold entry_text. normal_app.
  rewrite parse_value_object, parse_members_member, parse_value_string.
  cbn [bind]. rewrite members_tail_comma.
  rewrite parse_members_member, parse_value_bool.
  cbn [bind]. rewrite members_tail_comma.
  rewrite parse_members_member, parse_value_string.
  cbn [bind]. rewrite members_tail_close. reflexivity.
Qed.

Lemma stringify_history (l : list CheckResult) :
  JSON_stringify (JArr (map entry_json l)) = history_text l.
Proof.
  unfold JSON_stringify, history_text.
  change (stringify (JArr (map entry_json l)))
    with (91 :: join_comma (map stringify (map entry_json l)) ++ [93]).
  rewrite map_map. do 2 f_equal. f_equal. apply map_ext. apply stringify_entry.
Qed.

Lemma entry_text_brace (e : CheckResult) :
  exists text, entry_text e = 123 :: text.
Proof. eexists. reflexivity. Qed.

Lemma parse_elements_entries (l : list CheckResult) :
  forall e f rest,
    parse_elements (6 + length l + f) (join_comma (map entry_text (e :: l)) ++ 93 :: rest)
    = Parsed (map entry_json (e :: l)) rest.
Proof.
  induction l as [|e' l IH]; intros e f rest.
  - cbn [map join_comma length]. change (6 + 0 + f)%nat with (S (5 + f)).
    rewrite parse_elements_S, parse_value_entry. cbn [bind].
    now rewrite elements_tail_close.
  - change (map entry_text (e :: e' :: l)) with (entry_text e :: map entry_text (e' :: l)).
    change (join_comma (entry_text e :: map entry_text (e' :: l)))
      with (entry_text e ++ 44 :: join_comma (map entry_text (e' :: l))).
    normal_app.
    replace (6 + length (e' :: l) + f)%nat with (S (5 + (S (length l + f))))
      by (simpl; lia).
    rewrite parse_elements_S, parse_value_entry. cbn [bind].
    rewrite elements_tail_comma.
    replace (5 + S (length l + f))%nat with (6 + length l + f)%nat by lia.
    now rewrite IH.
Qed.

(** [JSON.parse(JSON.stringify(l))] for a list of [CheckResult]s. *)
Lemma JSON_parse_history (l : list CheckResult) :
  JSON_parse (JSON_stringify (JArr (map entry_json l))) = Some (JArr (map entry_json l)).
Proof.
  rewrite stringify_history. unfold history_text.
  destruct l as [|e l].
  - reflexivity.
  - apply (JSON_parse_run (S (6 + length l)) _ _ []); [|reflexivity].
    destruct (entry_text_brace e) as [text E].
    change (map entry_text (e :: l)) with (entry_text e :: map entry_text l).
    assert (B : exists t, join_comma (entry_text e :: map entry_text l) ++ [93]
                          = 123 :: t).
    { rewrite E. destruct (map entry_text l); eexists; reflexivity. }
    destruct B as [t B]. rewrite B, parse_value_array, <- B.
    replace (6 + length l)%nat with (6 + length l + 0)%nat by lia.
    change (entry_text e :: map entry_text l) with (map entry_text (e :: l)).
    now rewrite parse_elements_entries.
Qed.

End JsonFacts.

(** ** The history store *)

Section HistoryFacts.
Context {host : Host}.

Lemma username_lower_entry (h : CheckResult) :
  username_lower (entry_json h) = Normal (key h).
Proof. reflexivity. Qed.

Lemma filter_history_entries (k : jsstring) (l : list CheckResult) :
  filter_history k (map entry_json l) =
  Normal (map entry_json (filter (fun h => negb (jsstring_eqb (key h) k)) l)).
Proof.
  induction l as [|h l IH]; [reflexivity|].
  cbn [map filter_history filter]. rewrite username_lower_entry, IH.
  now destruct (jsstring_eqb (key h) k).
Qed.

Lemma loadHistory_saved (l : list CheckResult) :
  loadHistory (Some (JSON_stringify (JArr (map entry_json l)))) = JArr (map entry_json l).
Proof. unfold loadHistory. now rewrite JSON_parse_history. Qed.

(** On a store that holds a list of [CheckResult]s, [saveToHistory] returns
    the list [updated] and persists its text. *)
Lemma saveToHistory_entries (e : CheckResult) (l : list CheckResult) (store : storage) :
  loadHistory store = JArr (map entry_json l) ->
  saveToHistory e store =
  Normal (map entry_json (updated e l),
          Some (JSON_stringify (JArr (map entry_json (updated e l))))).
Proof.
  intros E. unfold saveToHistory. rewrite E, filter_history_entries.
  unfold updated, filtered, key.
  now rewrite <- firstn_map.
Qed.

Lemma updated_cons (e : CheckResult) (l : list CheckResult) :
  updated e l = e :: firstn 4 (filtered e l).
Proof. reflexivity. Qed.

Lemma updated_length (e : CheckResult) (l : list CheckResult) :
  (length (updated e l) <= MAX_HISTORY)%nat.
Proof. unfold updated. apply firstn_le_length. Qed.

Lemma filtered_keys (e : CheckResult) (l : list CheckResult) :
  ~ In (key e) (map key (filtered e l)).
Proof.
  unfold filtered. rewrite in_map_iff. intros (h & E & H).
  apply filter_In in H as [_ H]. rewrite E, jsstring_eqb_refl in H. discriminate.
Qed.

Lemma firstn_keys (n : nat) (l : list CheckResult) (k : jsstring) :
  In k (map key (firstn n l)) -> In k (map key l).
Proof.
  rewrite !in_map_iff. intros (h & E & H). exists h. split; [exact E|].
  rewrite <- (firstn_skipn n l). apply in_or_app. now left.
Qed.

Lemma NoDup_keys_filter (f : CheckResult -> bool) (l : list CheckResult) :
  NoDup (map key l) -> NoDup (map key (filter f l)).
Proof.
  induction l as [|h l IH]; simpl; [auto|]. intros H.
  apply NoDup_cons_iff in H as [H1 H2]. destruct (f h); simpl; [|auto].
  constructor; [|auto]. rewrite in_map_iff. intros (h' & E & H').
  apply filter_In in H' as [H' _]. apply H1. rewrite in_map_iff. eauto.
Qed.

Lemma NoDup_keys_firstn (n : nat) (l : list CheckResult) :
  NoDup (map key l) -> NoDup (map key (firstn n l)).
Proof.
  revert n; induction l as [|h l IH]; intros [|n]; simpl; auto using NoDup_nil.
  intros H. apply NoDup_cons_iff in H as [H1 H2].
  constructor; [|auto]. intros H. apply H1. now apply firstn_keys in H.
Qed.

Lemma updated_NoDup (e : CheckResult) (l : list CheckResult) :
  NoDup (map key l) -> NoDup (map key (updated e l)).
Proof.
  intros H. unfold updated. apply NoDup_keys_firstn. simpl. constructor.
  - apply filtered_keys.
  - now apply NoDup_keys_filter.
Qed.

(** A run of calls from a store that holds a list keeps holding a list,
    within the capacity and without two entries of one key. *)
Lemma appends_entries (es : list CheckResult) :
  forall (store : storage) (l : list CheckResult),
    loadHistory store = JArr (map entry_json l) ->
    exists store' l',
      appends es store = Normal store'
      /\ loadHistory store' = JArr (map entry_json l')
      /\ ((length l <= MAX_HISTORY)%nat -> (length l' <= MAX_HISTORY)%nat)
      /\ (NoDup (map key l) -> NoDup (map key l')).
Proof.
  induction es as [|e es IH]; intros store l E.
  - exists store, l. simpl. auto.
  - simpl. rewrite (saveToHistory_entries e l store E).
    destruct (IH _ (updated e l) (loadHistory_saved (updated e l)))
      as (store' & l' & A & B & C & D).
    exists store', l'. repeat split; auto.
    + intros _. apply C, updated_length.
    + intros H. now apply D, updated_NoDup.
Qed.

Lemma filter_key_length (l : list CheckResult) (h : CheckResult) :
  NoDup (map key l) -> In h l ->
  S (length (filter (fun h' => negb (jsstring_eqb (key h') (key h))) l)) = length l.
Proof.
  induction l as [|x l IH]; simpl; [tauto|]. intros D [->|H].
  - rewrite jsstring_eqb_refl. simpl. f_equal.
    apply NoDup_cons_iff in D as [D _]. clear IH.
    induction l as [|y l IH]; [reflexivity|]. simpl in *.
    destruct (jsstring_eqb (key y) (key h)) eqn:E.
    + apply jsstring_eqb_eq in E. tauto.
    + simpl. f_equal. apply IH. tauto.
  - apply NoDup_cons_iff in D as [D1 D2].
    destruct (jsstring_eqb (key x) (key h)) eqn:E.
    + apply jsstring_eqb_eq in E. exfalso. apply D1. rewrite E. now apply in_map.
    + simpl. f_equal. now apply IH.
Qed.

Lemma filter_absent_key (k : jsstring) (l : list CheckResult) :
  ~ In k (map key l) ->
  filter (fun h => negb (jsstring_eqb (key h) k)) l = l.
Proof.
  induction l as [|x l IH]; simpl; [reflexivity|]. intros H.
  destruct (jsstring_eqb (key x) k) eqn:E.
  - apply jsstring_eqb_eq in E. tauto.
  - simpl. f_equal. apply IH. tauto.
Qed.

Lemma firstn_short {A} (n : nat) (l : list A) : (length l <= n)%nat -> firstn n l = l.
Proof. apply firstn_all2. Qed.

(** C1. Whatever calls of [saveToHistory] are made from an empty history,
    every call returns, the store holds a list of at most [MAX_HISTORY]
    entries, and one more call for [e] returns and persists [e] followed by
    the entries kept from the list, cut at the end: what is dropped is the
    tail of the kept entries, and something is dropped only from a full
    list. *)
Theorem history_never_exceeds_capacity
    (store0 : storage) (es : list CheckResult) (e : CheckResult) :
  loadHistory store0 = JArr [] ->
  exists (l : list CheckResult) (store store' : storage) (kept dropped : list CheckResult),
    appends es store0 = Normal store
    /\ loadHistory store = JArr (map entry_json l)
    /\ (length l <= MAX_HISTORY)%nat
    /\ saveToHistory e store = Normal (map entry_json (e :: kept), store')
    /\ loadHistory store' = JArr (map entry_json (e :: kept))
    /\ filtered e l = kept ++ dropped
    /\ (length (e :: kept) <= MAX_HISTORY)%nat
    /\ (dropped <> [] -> length (e :: kept) = MAX_HISTORY).
Proof.
  intros E0.
  destruct (appends_entries es store0 [] E0) as (store & l & A & B & C & _).
  exists l, store, (Some (JSON_stringify (JArr (map entry_json (updated e l))))),
    (firstn 4 (filtered e l)), (skipn 4 (filtered e l)).
  repeat split.
  - exact A.
  - exact B.
  - apply C. simpl. unfold MAX_HISTORY. lia.
  - rewrite (saveToHistory_entries e l store B). now rewrite updated_cons.
  - rewrite loadHistory_saved. now rewrite updated_cons.
  - symmetry. apply firstn_skipn.
  - rewrite <- updated_cons. apply updated_length.
  - intros H. cbn [length]. unfold MAX_HISTORY. f_equal. apply firstn_length_le.
    destruct (Nat.le_gt_cases 4 (length (filtered e l))) as [L|L]; [exact L|].
    elim H. apply skipn_all2. lia.
Qed.

(** C2. After any calls of [saveToHistory] from an empty history and one
    more call for [e], no two entries of the list returned and persisted
    have the same lower-cased username; and when an entry of the list
    before the call has the lower-cased username of [e], the new list is
    [e] followed by the other entries, as long as the list before. *)
Theorem usernames_stay_distinct
    (store0 : storage) (es : list CheckResult) (e : CheckResult) :
  loadHistory store0 = JArr [] ->
  exists (l new : list CheckResult) (store store' : storage),
    appends es store0 = Normal store
    /\ loadHistory store = JArr (map entry_json l)
    /\ saveToHistory e store = Normal (map entry_json new, store')
    /\ loadHistory store' = JArr (map entry_json new)
    /\ NoDup (map key new)
    /\ (forall h, In h l -> key h = key e ->
         new = e :: filtered e l /\ length new = length l).
Proof.
  intros E0.
  destruct (appends_entries es store0 [] E0) as (store & l & A & B & C & D).
  assert (Ll : (length l <= MAX_HISTORY)%nat) by (apply C; simpl; unfold MAX_HISTORY; lia).
  assert (Dl : NoDup (map key l)) by (apply D; constructor).
  exists l, (updated e l), store,
    (Some (JSON_stringify (JArr (map entry_json (updated e l))))).
  repeat split.
  - exact A.
  - exact B.
  - apply (saveToHistory_entries e l store B).
  - apply loadHistory_saved.
  - now apply updated_NoDup.
  - rewrite updated_cons. f_equal. apply firstn_short.
    pose proof (filter_key_length l h Dl H) as F. unfold filtered. rewrite <- H0.
    unfold MAX_HISTORY in Ll. lia.
  - pose proof (filter_key_length l h Dl H) as F. rewrite updated_cons.
    cbn [length]. rewrite firstn_short.
    + unfold filtered. rewrite <- H0. exact F.
    + unfold filtered. rewrite <- H0. unfold MAX_HISTORY in Ll. lia.
Qed.

(** C6. On a store that holds a list of [CheckResult]s, a second call of
    [saveToHistory] for the same entry returns the same list and leaves
    the same store as the first; a call for an entry [e'] with the same
    lower-cased username puts [e'] where [e] was, at the front, leaves the
    other entries in place, and no other entry has that username. *)
Theorem append_idempotent
    (store : storage) (l : list CheckResult) (e : CheckResult) :
  loadHistory store = JArr (map entry_json l) ->
  exists (kept : list CheckResult) (store1 : storage),
    saveToHistory e store = Normal (map entry_json (e :: kept), store1)
    /\ saveToHistory e store1 = Normal (map entry_json (e :: kept), store1)
    /\ ~ In (key e) (map key kept)
    /\ forall e', key e' = key e ->
        exists store2,
          saveToHistory e' store1 = Normal (map entry_json (e' :: kept), store2)
          /\ loadHistory store2 = JArr (map entry_json (e' :: kept)).
Proof.
  intros E.
  set (kept := firstn 4 (filtered e l)).
  assert (K : ~ In (key e) (map key kept)).
  { intros H. apply firstn_keys in H. now apply filtered_keys in H. }
  assert (U : forall e', key e' = key e -> updated e' (e :: kept) = e' :: kept).
  { intros e' Ek. rewrite updated_cons. f_equal. unfold filtered. cbn [filter].
    rewrite Ek, jsstring_eqb_refl. cbn [negb]. rewrite filter_absent_key by exact K.
    apply firstn_short. unfold kept. apply firstn_le_length. }
  exists kept, (Some (JSON_stringify (JArr (map entry_json (e :: kept))))).
  repeat split.
  - rewrite (saveToHistory_entries e l store E). now rewrite updated_cons.
  - rewrite (saveToHistory_entries e (e :: kept) _ (loadHistory_saved (e :: kept))).
    now rewrite (U e eq_refl).
  - exact K.
  - intros e' Ek.
    exists (Some (JSON_stringify (JArr (map entry_json (e' :: kept))))). split.
    + rewrite (saveToHistory_entries e' (e :: kept) _ (loadHistory_saved (e :: kept))).
      now rewrite (U e' Ek).
    + apply loadHistory_saved.
Qed.

(** What [loadHistory] returns when nothing is persisted or the persisted
    text is not JSON. *)
Lemma loadHistory_absent : loadHistory None = JArr [].
Proof. reflexivity. Qed.

Lemma loadHistory_unreadable (text : jsstring) :
  JSON_parse text = None -> loadHistory (Some text) = JArr [].
Proof. intros E. unfold loadHistory. now rewrite E. Qed.

(** C3. The persisted text [null] is JSON and not a list: [loadHistory]
    returns the value [null], not the empty list; likewise an object is
    returned for the text of an object. *)
Theorem loadHistory_returns_non_list :
  loadHistory (Some (js "null")) = JNull
  /\ loadHistory (Some (js "{}")) = JObj []
  /\ JNull <> JArr [].
Proof. repeat split; discriminate. Qed.

(** C7. With the text [null] persisted, [saveToHistory] raises the
    engine's error for [history.filter] on [null], nothing is persisted and
    [loadHistory] still returns [null]. *)
Theorem saveToHistory_throws_on_non_list (e : CheckResult) :
  saveToHistory e (Some (js "null")) = Throw FilterOfNull
  /\ loadHistory (Some (js "null")) = JNull.
Proof. split; reflexivity. Qed.

(** X2. On a store that holds a list of [CheckResult]s, what [loadHistory]
    returns after [saveToHistory] is the list [saveToHistory] returned, and
    it starts with the entry. *)
Lemma saveToHistory_then_loadHistory
    (store : storage) (l : list CheckResult) (e : CheckResult) :
  loadHistory store = JArr (map entry_json l) ->
  exists (rest : list json) (store' : storage),
    saveToHistory e store = Normal (entry_json e :: rest, store')
    /\ loadHistory store' = JArr (entry_json e :: rest).
Proof.
  intros E.
  exists (map entry_json (firstn 4 (filtered e l))),
    (Some (JSON_stringify (JArr (map entry_json (updated e l))))).
  split.
  - now rewrite (saveToHistory_entries e l store E), updated_cons.
  - now rewrite loadHistory_saved, updated_cons.
Qed.

End HistoryFacts.

(** ** The validator and the check *)

Section CheckFacts.
Context {host : Host}.

Lemma match_repeat_spec (cls : N -> bool) (max : nat) :
  forall (min : nat) (s : jsstring),
    match_repeat cls min max s = true <->
    forallb cls s = true /\ (min <= length s <= max)%nat.
Proof.
  induction max as [|max IH]; intros min [|c s]; simpl.
  - rewrite andb_true_r, Nat.eqb_eq. intuition lia.
  - rewrite andb_false_r. intuition (try discriminate; lia).
  - rewrite Nat.eqb_eq. intuition lia.
  - rewrite andb_false_r, orb_false_r, !andb_true_iff, IH.
    intuition lia.
Qed.

Lemma word_class_spec (c : N) : word_class c = true <-> ascii_word c.
Proof.
  unfold word_class, ascii_word.
  rewrite !orb_true_iff, !between_spec, N.eqb_eq. tauto.
Qed.

Lemma forallb_word_class (s : jsstring) :
  forallb word_class s = true <-> Forall ascii_word s.
Proof.
  rewrite forallb_forall, Forall_forall.
  split; intros H c Hc; apply word_class_spec; auto.
Qed.

Lemma isValidUsername_spec (name : jsstring) :
  isValidUsername name = true <-> acceptable_identifier name.
Proof.
  unfold isValidUsername, acceptable_identifier.
  now rewrite match_repeat_spec, forallb_word_class.
Qed.

Lemma word_class_unreserved (c : N) : word_class c = true -> uri_unreserved c = true.
Proof.
  unfold word_class, uri_unreserved. rewrite !orb_true_iff. tauto.
Qed.

Lemma encodeURIComponent_word (s : jsstring) :
  forallb word_class s = true -> encodeURIComponent s = Some s.
Proof.
  induction s as [|c s IH]; [reflexivity|]. simpl.
  rewrite andb_true_iff. intros [Hc Hs].
  now rewrite (word_class_unreserved c Hc), (IH Hs).
Qed.

Lemma acceptable_not_empty (t : jsstring) : acceptable_identifier t -> at_end t = false.
Proof. intros [_ L]. destruct t; [simpl in L; lia|reflexivity]. Qed.

(** A valid name goes on to the request. *)
Lemma checkUsername_valid (nameOverride : option jsstring) (s : State) :
  let trimmed := trim (name_or_input nameOverride s) in
  acceptable_identifier trimmed ->
  checkUsername nameOverride s =
  Await (WORKER_URL ++ js "?login=" ++ trimmed)
        (setResult None (setError None (setLoading true s)))
        (after_fetch trimmed (setResult None (setError None (setLoading true s)))).
Proof.
  intros trimmed H. unfold checkUsername. fold trimmed.
  rewrite (acceptable_not_empty _ H).
  rewrite (proj2 (isValidUsername_spec trimmed) H). cbn [negb].
  apply isValidUsername_spec in H. unfold isValidUsername in H.
  apply match_repeat_spec in H as [H _].
  now rewrite (encodeURIComponent_word trimmed H).
Qed.

Lemma checkUsername_invalid (nameOverride : option jsstring) (s : State) :
  let trimmed := trim (name_or_input nameOverride s) in
  trimmed <> [] -> ~ acceptable_identifier trimmed ->
  checkUsername nameOverride s =
  Return (setResult None (setError (Some VALIDATION_MESSAGE) s)).
Proof.
  intros trimmed N H. unfold checkUsername. fold trimmed.
  destruct trimmed as [|c t] eqn:E; [now elim N|]. cbn [at_end].
  destruct (isValidUsername (c :: t)) eqn:V; [|reflexivity].
  now apply isValidUsername_spec in V.
Qed.

(** C4. The validator accepts the trimmed string exactly when the rule of
    the specification holds of it, and the check goes on to a request
    exactly then. *)
Theorem validator_accepts_exactly_the_rule (nameOverride : option jsstring) (s : State) :
  let trimmed := trim (name_or_input nameOverride s) in
  (isValidUsername trimmed = true <-> acceptable_identifier trimmed)
  /\ ((exists url pending resume, checkUsername nameOverride s = Await url pending resume)
      <-> acceptable_identifier trimmed).
Proof.
  intros trimmed. split; [apply isValidUsername_spec|]. split.
  - intros (url & pending & resume & E). unfold checkUsername in E.
    fold trimmed in E.
    destruct (at_end trimmed); [discriminate|].
    destruct (isValidUsername trimmed) eqn:V; [|discriminate].
    now apply isValidUsername_spec.
  - intros H. do 3 eexists. apply (checkUsername_valid nameOverride s H).
Qed.

(** C5, amended. When the trimmed input is not empty and fails the rule,
    the check returns without a request, the error is the message of the
    source, the result is cleared and nothing else changes. *)
Theorem invalid_input_is_reported (nameOverride : option jsstring) (s : State) :
  trim (name_or_input nameOverride s) <> [] ->
  ~ acceptable_identifier (trim (name_or_input nameOverride s)) ->
  exists s',
    checkUsername nameOverride s = Return s'
    /\ s_error s' = Some VALIDATION_MESSAGE
    /\ s_result s' = None
    /\ s_history s' = s_history s
    /\ localStorage s' = localStorage s
    /\ s_loading s' = s_loading s.
Proof.
  intros N H. eexists. split; [apply (checkUsername_invalid nameOverride s N H)|].
  repeat split.
Qed.

Lemma trimStart_whitespace (s : jsstring) :
  Forall (fun c => is_js_whitespace c = true) s -> trimStart s = [].
Proof. induction 1 as [|c s Hc _ IH]; simpl; [reflexivity|]. now rewrite Hc. Qed.

Lemma trim_whitespace (s : jsstring) :
  Forall (fun c => is_js_whitespace c = true) s -> trim s = [].
Proof. intros H. unfold trim. now rewrite (trimStart_whitespace s H). Qed.

(** C10. When the input is empty or holds nothing but white space, the
    check returns at once and the state is the state before: no request,
    no error, no change of result, history or store. *)
Theorem blank_input_is_ignored (nameOverride : option jsstring) (s : State) :
  Forall (fun c => is_js_whitespace c = true) (name_or_input nameOverride s) ->
  checkUsername nameOverride s = Return s.
Proof.
  intros H. unfold checkUsername. now rewrite (trim_whitespace _ H).
Qed.

(** C8, amended. For a valid name the check issues one request.  If the
    response has a status outside 200..299, the error is the text
    [API error: ] followed by the status in decimal; if the request is
    rejected, the error is the message of the rejection when it is an
    error object and the connectivity message otherwise.  In both cases
    there is no result and the history and the store are as before. *)
Theorem failed_lookup_is_reported (nameOverride : option jsstring) (s : State) :
  acceptable_identifier (trim (name_or_input nameOverride s)) ->
  exists url pending resume,
    checkUsername nameOverride s = Await url pending resume
    /\ (forall status body now,
         ok status = false ->
         let s' := resume (FetchResponse status body) now in
         s_error s' = Some (js "API error: " ++ decimal status)
         /\ s_result s' = None
         /\ s_history s' = s_history s
         /\ localStorage s' = localStorage s)
    /\ (forall reason now,
         let s' := resume (FetchRejected reason) now in
         s_error s' = Some (match reason with
                            | ErrorInstance message => message
                            | NotAnError => NETWORK_MESSAGE
                            end)
         /\ s_result s' = None
         /\ s_history s' = s_history s
         /\ localStorage s' = localStorage s).
Proof.
  intros H. do 3 eexists. split; [apply (checkUsername_valid nameOverride s H)|].
  split.
  - intros status body now E. unfold after_fetch. rewrite E. cbn [negb].
    repeat split.
  - intros reason now. repeat split.
Qed.

(** What a successful lookup does.  For a valid name whose request is
    answered with a status in 200..299 and a body that is an object with a
    boolean [exists], the
    request went to the worker URL with the name as the [login] parameter,
    the result is the entry with the trimmed name, the negated flag and the
    time of the answer, and [saveToHistory] is called with that entry on
    the store as it is: what it returns becomes the history and what it
    persists the store.  Where the store holds a list of [CheckResult]s,
    the history becomes that entry followed by the entries kept from the
    list, the store holds the same list, and no error is set. *)
Theorem successful_lookup_is_recorded
    (nameOverride : option jsstring) (s : State)
    (status : N) (props : list (jsstring * json)) (exists_ : bool) (now : jsstring) :
  let trimmed := trim (name_or_input nameOverride s) in
  let entry := {| username := trimmed; available := negb exists_; checkedAt := now |} in
  acceptable_identifier trimmed ->
  ok status = true ->
  get_prop (js "exists") props = Some (JBool exists_) ->
  exists pending resume,
    checkUsername nameOverride s =
      Await (WORKER_URL ++ js "?login=" ++ trimmed) pending resume
    /\ let s' := resume (FetchResponse status (JsonValue (JObj props))) now in
       s_result s' = Some entry
       /\ match saveToHistory entry (localStorage s) with
          | Normal (list, store) =>
            s_history s' = JArr list /\ localStorage s' = store /\ s_error s' = None
          | Throw e =>
            s_history s' = s_history s /\ localStorage s' = localStorage s
            /\ s_error s' = Some (native_message e)
          end
       /\ forall l, loadHistory (localStorage s) = JArr (map entry_json l) ->
          s_history s' = JArr (map entry_json (entry :: firstn 4 (filtered entry l)))
          /\ loadHistory (localStorage s') = s_history s'
          /\ s_error s' = None
          /\ s_loading s' = false.
Proof.
  intros trimmed entry H Hok Hex. do 2 eexists.
  split; [apply (checkUsername_valid nameOverride s H)|].
  fold trimmed. unfold after_fetch. rewrite Hok. cbn [negb read_exists].
  rewrite Hex. cbn [truthy]. fold entry.
  change (localStorage (setResult (Some entry)
            (setResult None (setError None (setLoading true s)))))
    with (localStorage s).
  split; [|split].
  - destruct (saveToHistory entry (localStorage s)) as [[u st]|err]; reflexivity.
  - destruct (saveToHistory entry (localStorage s)) as [[u st]|err]; repeat split.
  - intros l E.
    rewrite (saveToHistory_entries entry l _ E).
    cbn [s_history s_error s_loading localStorage setLoading setHistory setStorage
         setResult setError].
    rewrite loadHistory_saved. now rewrite updated_cons.
Qed.

(** C9. With the text of an array holding one empty object persisted, a
    store the component mounts and renders, the name [shroud] and an answer
    of status 200 with the body of an object whose [exists] is [true]: the
    request is issued and the result is the entry for the name, but
    [saveToHistory] raises the engine's error for [toLowerCase] read of
    [undefined], so the entry is not appended: the history and the store
    are what they were, and the error is set to the message of that
    error. *)
Theorem lookup_is_not_recorded_over_unreadable_entry (now : jsstring) :
  let s := mount (setStorage (Some (js "[{}]")) initial) in
  let entry := {| username := js "shroud"; available := false; checkedAt := now |} in
  exists pending resume,
    checkUsername (Some (js "shroud")) s
    = Await (WORKER_URL ++ js "?login=" ++ js "shroud") pending resume
    /\ let s' := resume (FetchResponse 200
                           (JsonValue (JObj [(js "exists", JBool true)]))) now in
       s_result s' = Some entry
       /\ s_history s = JArr [JObj []]
       /\ s_history s' = JArr [JObj []]
       /\ localStorage s' = Some (js "[{}]")
       /\ loadHistory (localStorage s') = JArr [JObj []]
       /\ s_error s' = Some (native_message ToLowerCaseOfUndefined).
Proof.
  cbv zeta. do 2 eexists. split; [reflexivity|]. repeat split.
Qed.

End CheckFacts.

(** ** The theorems at sample inputs *)

Section Samples.
#[local] Existing Instance ascii_host.

Lemma history_never_exceeds_capacity_witness :
  loadHistory None = JArr []
  /\ exists (l : list CheckResult) (store store' : storage)
            (kept dropped : list CheckResult),
      appends [shroud_taken] None = Normal store
      /\ loadHistory store = JArr (map entry_json l)
      /\ (length l <= MAX_HISTORY)%nat
      /\ saveToHistory SHROUD_free store = Normal (map entry_json (SHROUD_free :: kept), store')
      /\ loadHistory store' = JArr (map entry_json (SHROUD_free :: kept))
      /\ filtered SHROUD_free l = kept ++ dropped
      /\ (length (SHROUD_free :: kept) <= MAX_HISTORY)%nat
      /\ (dropped <> [] -> length (SHROUD_free :: kept) = MAX_HISTORY).
Proof.
  split; [reflexivity|].
  apply (history_never_exceeds_capacity None [shroud_taken] SHROUD_free).
  reflexivity.
Defined.

Lemma usernames_stay_distinct_witness :
  loadHistory None = JArr []
  /\ exists (l new : list CheckResult) (store store' : storage),
      appends [shroud_taken] None = Normal store
      /\ loadHistory store = JArr (map entry_json l)
      /\ saveToHistory SHROUD_free store = Normal (map entry_json new, store')
      /\ loadHistory store' = JArr (map entry_json new)
      /\ NoDup (map key new)
      /\ (forall h, In h l -> key h = key SHROUD_free ->
           new = SHROUD_free :: filtered SHROUD_free l /\ length new = length l).
Proof.
  split; [reflexivity|].
  apply (usernames_stay_distinct None [shroud_taken] SHROUD_free).
  reflexivity.
Defined.

Lemma append_idempotent_witness :
  loadHistory None = JArr (map entry_json [])
  /\ exists (kept : list CheckResult) (store1 : storage),
      saveToHistory shroud_taken None = Normal (map entry_json (shroud_taken :: kept), store1)
      /\ saveToHistory shroud_taken store1
         = Normal (map entry_json (shroud_taken :: kept), store1)
      /\ ~ In (key shroud_taken) (map key kept)
      /\ forall e', key e' = key shroud_taken ->
          exists store2,
            saveToHistory e' store1 = Normal (map entry_json (e' :: kept), store2)
            /\ loadHistory store2 = JArr (map entry_json (e' :: kept)).
Proof.
  split; [reflexivity|].
  apply (append_idempotent None [] shroud_taken). reflexivity.
Defined.

Lemma not_acceptable_ab : ~ acceptable_identifier (trim (js "ab")).
Proof. intros [_ [L _]]. vm_compute in L. lia. Qed.

Lemma invalid_input_is_reported_witness :
  trim (name_or_input (Some (js "ab")) initial) <> []
  /\ ~ acceptable_identifier (trim (name_or_input (Some (js "ab")) initial))
  /\ exists s',
      checkUsername (Some (js "ab")) initial = Return s'
      /\ s_error s' = Some VALIDATION_MESSAGE
      /\ s_result s' = None
      /\ s_history s' = s_history initial
      /\ localStorage s' = localStorage initial
      /\ s_loading s' = s_loading initial.
Proof.
  split; [discriminate|]. split; [exact not_acceptable_ab|].
  apply (invalid_input_is_reported (Some (js "ab")) initial).
  - discriminate.
  - exact not_acceptable_ab.
Defined.

(** C5 as stated fails: for the input [ab] the error is not the text the
    specification quotes, and for an empty input no error is reported and
    a result shown before stays. *)
Lemma validation_message_counterexample :
  (~ acceptable_identifier (trim (js "ab"))
   /\ exists s', checkUsername (Some (js "ab")) initial = Return s'
                 /\ s_error s' <> Some SPEC_VALIDATION_MESSAGE)
  /\ (~ acceptable_identifier (trim [])
      /\ exists s', checkUsername (Some []) (setResult (Some shroud_taken) initial) = Return s'
                    /\ s_error s' = None
                    /\ s_result s' = Some shroud_taken).
Proof.
  split; split.
  - exact not_acceptable_ab.
  - eexists. split; [reflexivity|]. discriminate.
  - intros [_ [L _]]. vm_compute in L. lia.
  - eexists. split; [reflexivity|]. split; reflexivity.
Qed.

Lemma blank_input_is_ignored_witness :
  Forall (fun c => is_js_whitespace c = true) (name_or_input (Some (js "   ")) initial)
  /\ checkUsername (Some (js "   ")) initial = Return initial.
Proof.
  assert (W : Forall (fun c => is_js_whitespace c = true)
                (name_or_input (Some (js "   ")) initial))
    by (repeat constructor).
  split; [exact W|]. apply (blank_input_is_ignored (Some (js "   ")) initial W).
Defined.

Lemma acceptable_shroud : acceptable_identifier (trim (js "shroud")).
Proof. apply isValidUsername_spec. reflexivity. Qed.

Lemma failed_lookup_is_reported_witness :
  acceptable_identifier (trim (name_or_input (Some (js "shroud")) initial))
  /\ exists url pending resume,
      checkUsername (Some (js "shroud")) initial = Await url pending resume
      /\ (forall status body now,
           ok status = false ->
           let s' := resume (FetchResponse status body) now in
           s_error s' = Some (js "API error: " ++ decimal status)
           /\ s_result s' = None
           /\ s_history s' = s_history initial
           /\ localStorage s' = localStorage initial)
      /\ (forall reason now,
           let s' := resume (FetchRejected reason) now in
           s_error s' = Some (match reason with
                              | ErrorInstance message => message
                              | NotAnError => NETWORK_MESSAGE
                              end)
           /\ s_result s' = None
           /\ s_history s' = s_history initial
           /\ localStorage s' = localStorage initial).
Proof.
  split; [exact acceptable_shroud|].
  apply (failed_lookup_is_reported (Some (js "shroud")) initial acceptable_shroud).
Defined.

(** C8 as stated fails: a request rejected with an error object, as
    [fetch] rejects when no response is obtained, shows the message of
    that object and not the connectivity message. *)
Lemma rejected_request_counterexample :
  acceptable_identifier (trim (js "shroud"))
  /\ exists url pending resume,
      checkUsername (Some (js "shroud")) initial = Await url pending resume
      /\ s_error (resume (FetchRejected (ErrorInstance (js "Failed to fetch"))) time1)
         = Some (js "Failed to fetch")
      /\ s_error (resume (FetchRejected (ErrorInstance (js "Failed to fetch"))) time1)
         <> Some NETWORK_MESSAGE.
Proof.
  split; [exact acceptable_shroud|].
  do 3 eexists. split; [reflexivity|]. split; [reflexivity|discriminate].
Qed.

Lemma successful_lookup_is_recorded_witness :
  acceptable_identifier (trim (name_or_input (Some (js "shroud")) initial))
  /\ ok 200 = true
  /\ get_prop (js "exists") [(js "exists", JBool true)] = Some (JBool true)
  /\ exists pending resume,
      checkUsername (Some (js "shroud")) initial =
        Await (WORKER_URL ++ js "?login=" ++ trim (js "shroud")) pending resume
      /\ let s' := resume (FetchResponse 200
                            (JsonValue (JObj [(js "exists", JBool true)]))) time1 in
         s_result s' = Some shroud_taken
         /\ match saveToHistory shroud_taken (localStorage initial) with
            | Normal (list, store) =>
              s_history s' = JArr list /\ localStorage s' = store /\ s_error s' = None
            | Throw e =>
              s_history s' = s_history initial /\ localStorage s' = localStorage initial
              /\ s_error s' = Some (native_message e)
            end
         /\ forall l, loadHistory (localStorage initial) = JArr (map entry_json l) ->
            s_history s'
            = JArr (map entry_json (shroud_taken :: firstn 4 (filtered shroud_taken l)))
            /\ loadHistory (localStorage s') = s_history s'
            /\ s_error s' = None
            /\ s_loading s' = false.
Proof.
  split; [exact acceptable_shroud|]. split; [reflexivity|]. split; [reflexivity|].
  apply (successful_lookup_is_recorded (Some (js "shroud")) initial 200
           [(js "exists", JBool true)] true time1 acceptable_shroud);
    reflexivity.
Defined.

(** *** The scenarios of the specification *)

(** Six distinct names checked in a row: the five most recent stay. *)
Example six_names_keep_five :
  exists store,
    appends [sample "name1"; sample "name2"; sample "name3"; sample "name4";
             sample "name5"; sample "name6"] None = Normal store
    /\ loadHistory store
       = JArr (map entry_json [sample "name6"; sample "name5"; sample "name4";
                               sample "name3"; sample "name2"]).
Proof. eexists. split; vm_compute; reflexivity. Qed.

(** [SHROUD] checked after [shroud] and another name: one entry for the
    name, the new one, at the front. *)
Example shroud_is_replaced :
  exists store,
    appends [shroud_taken; sample "other"; SHROUD_free] None = Normal store
    /\ loadHistory store = JArr (map entry_json [SHROUD_free; sample "other"]).
Proof. eexists. split; vm_compute; reflexivity. Qed.

(** A response with status 500. *)
Example status_500_is_shown :
  exists url pending resume,
    checkUsername (Some (js "shroud")) initial = Await url pending resume
    /\ s_error (resume (FetchResponse 500 (JsonRejected NotAnError)) time1)
       = Some (js "API error: 500").
Proof. do 3 eexists. split; vm_compute; reflexivity. Qed.

(** The store after [clearHistory]. *)
Example cleared_history_is_empty (s : State) :
  loadHistory (localStorage (clearHistory s)) = JArr [].
Proof. reflexivity. Qed.

(** Persisted values that are JSON and not a list of entries. *)
Example saveToHistory_on_other_values :
  saveToHistory shroud_taken (Some (js "[null]")) = Throw UsernameOfNullish
  /\ saveToHistory shroud_taken (Some (js "[{}]")) = Throw ToLowerCaseOfUndefined
  /\ saveToHistory shroud_taken (Some (js "[7]")) = Throw ToLowerCaseOfUndefined
  /\ saveToHistory shroud_taken (Some (js "42")) = Throw FilterNotCallable
  /\ saveToHistory shroud_taken (Some (js "{}")) = Throw FilterNotCallable.
Proof. repeat split. Qed.

End Samples.

(** ** Trimming *)

Lemma trimStart_fixed (s : jsstring) :
  (forall c t, s = c :: t -> is_js_whitespace c = false) -> trimStart s = s.
Proof.
  destruct s as [|c t]; [reflexivity|]. intros H. simpl.
  now rewrite (H c t eq_refl).
Qed.

Lemma trimStart_head (s : jsstring) (c : N) (t : jsstring) :
  trimStart s = c :: t -> is_js_whitespace c = false.
Proof.
  induction s as [|x s IH]; simpl; [discriminate|].
  destruct (is_js_whitespace x) eqn:E; [exact IH|].
  intros H; injection H as <- _. exact E.
Qed.

Lemma trimStart_idempotent (s : jsstring) : trimStart (trimStart s) = trimStart s.
Proof.
  apply trimStart_fixed. intros c t E. now apply trimStart_head in E.
Qed.

Lemma trimStart_snoc (a : jsstring) (c : N) :
  is_js_whitespace c = false -> trimStart (a ++ [c]) = trimStart a ++ [c].
Proof.
  intros Hc. induction a as [|x a IH]; simpl.
  - now rewrite Hc.
  - destruct (is_js_whitespace x); [exact IH|reflexivity].
Qed.

Lemma trimEnd_cons (c : N) (t : jsstring) :
  is_js_whitespace c = false -> trimEnd (c :: t) = c :: trimEnd t.
Proof.
  intros Hc. unfold trimEnd. simpl rev.
  now rewrite (trimStart_snoc _ c Hc), rev_app_distr.
Qed.

Lemma trimEnd_idempotent (s : jsstring) : trimEnd (trimEnd s) = trimEnd s.
Proof.
  unfold trimEnd. now rewrite rev_involutive, trimStart_idempotent.
Qed.

Lemma trim_idempotent (s : jsstring) : trim (trim s) = trim s.
Proof.
  unfold trim. destruct (trimStart s) as [|c t] eqn:E; [reflexivity|].
  pose proof (trimStart_head s c t E) as Hc.
  rewrite (trimEnd_cons c t Hc). simpl trimStart. rewrite Hc.
  now rewrite (trimEnd_cons c _ Hc), trimEnd_idempotent.
Qed.

Lemma trim_fixed (s : jsstring) :
  Forall (fun c => is_js_whitespace c = false) s -> trim s = s.
Proof.
  intros H. unfold trim, trimEnd.
  rewrite (trimStart_fixed s).
  - rewrite (trimStart_fixed (rev s)); [apply rev_involutive|].
    intros c t E. rewrite Forall_forall in H. apply H. apply in_rev.
    rewrite E. now left.
  - intros c t ->. now inversion H.
Qed.

Lemma ascii_word_not_whitespace (c : N) : ascii_word c -> is_js_whitespace c = false.
Proof.
  intros H. destruct (is_js_whitespace c) eqn:E; [exfalso|reflexivity].
  unfold is_js_whitespace in E.
  rewrite !orb_true_iff, !between_spec, !N.eqb_eq in E.
  unfold ascii_word in H. lia.
Qed.

Lemma trim_acceptable (t : jsstring) : acceptable_identifier t -> trim t = t.
Proof.
  intros [H _]. apply trim_fixed. revert H. apply Forall_impl.
  exact ascii_word_not_whitespace.
Qed.

(** ** The handlers *)

Section HandlerFacts.
Context {host : Host}.

(** The three ways a call of [checkUsername] goes. *)
Lemma checkUsername_cases (nameOverride : option jsstring) (s : State) :
  let trimmed := trim (name_or_input nameOverride s) in
  (trimmed = [] /\ checkUsername nameOverride s = Return s)
  \/ (trimmed <> [] /\ ~ acceptable_identifier trimmed
      /\ checkUsername nameOverride s
         = Return (setResult None (setError (Some VALIDATION_MESSAGE) s)))
  \/ (acceptable_identifier trimmed
      /\ checkUsername nameOverride s
         = Await (WORKER_URL ++ js "?login=" ++ trimmed)
                 (setResult None (setError None (setLoading true s)))
                 (after_fetch trimmed (setResult None (setError None (setLoading true s))))).
Proof.
  cbv zeta.
  pose proof (checkUsername_valid nameOverride s) as Cv.
  pose proof (checkUsername_invalid nameOverride s) as Ci.
  cbv zeta in Cv, Ci.
  destruct (trim (name_or_input nameOverride s)) as [|c t] eqn:E.
  - left. split; [reflexivity|]. unfold checkUsername. now rewrite E.
  - destruct (isValidUsername (c :: t)) eqn:V.
    + right. right. apply isValidUsername_spec in V. split; [exact V|].
      now apply Cv.
    + right. left. split; [discriminate|].
      assert (N : ~ acceptable_identifier (c :: t)).
      { intros H. apply isValidUsername_spec in H. congruence. }
      split; [exact N|]. apply Ci; [discriminate|exact N].
Qed.

(** X4. White space around a name passed to [checkUsername] changes
    nothing: the call does what it does for the trimmed name. *)
Theorem check_ignores_surrounding_space (name : jsstring) (s : State) :
  checkUsername (Some name) s = checkUsername (Some (trim name)) s.
Proof.
  unfold checkUsername. cbn [name_or_input]. now rewrite trim_idempotent.
Qed.

Lemma has_username_spec (h : json) :
  has_username h = true <-> exists u, username_lower h = Normal u.
Proof.
  unfold has_username, username_lower.
  destruct h as [| | | | |props];
    try (split; [discriminate|intros [u H]; discriminate]).
  destruct (get_prop (js "username") props) as [[| | |str| |]|];
    (split; [try discriminate; eauto|intros [u H]; try discriminate; reflexivity]).
Qed.

Lemma filter_history_returns (k : jsstring) (items : list json) :
  (exists kept, filter_history k items = Normal kept)
  <-> forallb has_username items = true.
Proof.
  induction items as [|h items IH]; simpl.
  - split; eauto.
  - rewrite andb_true_iff, <- IH, has_username_spec. split.
    + intros [kept H]. destruct (username_lower h) as [u|]; [|discriminate].
      destruct (filter_history k items) as [kept'|]; [|discriminate]. eauto.
    + intros [[u Hu] [kept Hk]]. rewrite Hu, Hk. eauto.
Qed.

Lemma filter_history_kept (k : jsstring) (items : list json) :
  forall kept, filter_history k items = Normal kept ->
    forall h, In h kept -> In h items /\ username_lower h <> Normal k.
Proof.
  induction items as [|x items IH]; simpl; intros kept H h Hin.
  - injection H as <-. elim Hin.
  - destruct (username_lower x) as [u|] eqn:Eu; [|discriminate].
    destruct (filter_history k items) as [kept'|]; [|discriminate].
    injection H as <-. destruct (jsstring_eqb u k) eqn:Ek.
    + destruct (IH _ eq_refl h Hin). auto.
    + destruct Hin as [<-|Hin].
      * split; [now left|]. rewrite Eu. intros E; injection E as ->.
        now rewrite jsstring_eqb_refl in Ek.
      * destruct (IH _ eq_refl h Hin). auto.
Qed.

(** X3. Whatever the store holds, [saveToHistory] returns exactly when
    what [loadHistory] reads is an array whose elements are all objects
    with a string [username]; the list it returns then starts with the
    entry, has at most [MAX_HISTORY] elements, is what it persists, and
    its other elements are elements of the array read whose lower-cased
    username is not that of the entry. *)
Theorem saveToHistory_returns_exactly_when (e : CheckResult) (store : storage) :
  ((exists u st, saveToHistory e store = Normal (u, st))
   <-> (exists items, loadHistory store = JArr items
                      /\ forallb has_username items = true))
  /\ forall u st, saveToHistory e store = Normal (u, st) ->
       exists rest items,
         u = entry_json e :: rest
         /\ (length u <= MAX_HISTORY)%nat
         /\ st = Some (JSON_stringify (JArr u))
         /\ loadHistory store = JArr items
         /\ forall h, In h rest -> In h items /\ username_lower h <> Normal (key e).
Proof.
  unfold saveToHistory. split; [split|].
  - intros (u & st & H).
    destruct (loadHistory store) as [| | | |items|]; try discriminate.
    exists items. split; [reflexivity|].
    apply (filter_history_returns (toLowerCase (username e))).
    destruct (filter_history _ items) as [kept|]; [eauto|discriminate].
  - intros (items & -> & H).
    apply (filter_history_returns (toLowerCase (username e))) in H as [kept ->].
    eauto.
  - intros u st H.
    destruct (loadHistory store) as [| | | |items|]; try discriminate.
    destruct (filter_history _ items) as [kept|] eqn:F; [|discriminate].
    injection H as <- <-.
    exists (firstn 4 kept), items.
    split; [reflexivity|].
    split.
    { change (length (firstn MAX_HISTORY (entry_json e :: kept)) <= MAX_HISTORY)%nat.
      apply firstn_le_length. }
    split; [reflexivity|]. split; [reflexivity|].
    intros h Hin. apply (filter_history_kept _ _ _ F).
    rewrite <- (firstn_skipn 4 kept). apply in_or_app. now left.
Qed.

(** X1. The text [saveToHistory] persists for a list of entries is read
    back by [loadHistory] as that list, whatever code units the usernames
    and times hold (quotes, backslashes, control characters, unpaired
    surrogates). *)
Theorem persisted_history_reads_back (l : list CheckResult) :
  JSON_parse (JSON_stringify (JArr (map entry_json l))) = Some (JArr (map entry_json l))
  /\ loadHistory (Some (JSON_stringify (JArr (map entry_json l))))
     = JArr (map entry_json l).
Proof. split; [apply JSON_parse_history|apply loadHistory_saved]. Qed.

(** X5. A response with a status in 200..299 whose body is an object
    without an [exists] property is recorded as an available name. *)
Theorem missing_exists_means_available
    (trimmed : jsstring) (s : State) (status : N)
    (props : list (jsstring * json)) (now : jsstring) :
  ok status = true ->
  get_prop (js "exists") props = None ->
  s_result (after_fetch trimmed s (FetchResponse status (JsonValue (JObj props))) now)
  = Some {| username := trimmed; available := true; checkedAt := now |}.
Proof.
  intros Hok Hex. unfold after_fetch. rewrite Hok. cbn [negb read_exists].
  rewrite Hex. cbn [truthy negb].
  destruct (saveToHistory _ _) as [[u st]|err]; reflexivity.
Qed.

(** X6. However a request settles, the rest of [checkUsername] leaves
    [loading] false and the input as it is, and it changes the history or
    the store only when the response has a status in 200..299 and a body
    that is JSON other than [null], and [saveToHistory] returns. *)
Theorem settlement_frame
    (trimmed : jsstring) (s : State) (res : fetch_settlement) (now : jsstring) :
  let s' := after_fetch trimmed s res now in
  s_loading s' = false
  /\ s_username s' = s_username s
  /\ (s_history s' <> s_history s \/ localStorage s' <> localStorage s ->
      exists status data entry u st,
        res = FetchResponse status (JsonValue data)
        /\ ok status = true
        /\ data <> JNull
        /\ username entry = trimmed /\ checkedAt entry = now
        /\ saveToHistory entry (localStorage s) = Normal (u, st)
        /\ s_history s' = JArr u /\ localStorage s' = st).
Proof.
  unfold after_fetch.
  destruct res as [reason|status [reason|data]].
  - repeat split. intros [H|H]; now elim H.
  - destruct (ok status); cbn [negb]; repeat split; intros [H|H]; now elim H.
  - destruct (ok status) eqn:Hok; cbn [negb].
    2: { repeat split; intros [H|H]; now elim H. }
    destruct (read_exists data) as [ex|err] eqn:R.
    2: { repeat split; intros [H|H]; now elim H. }
    set (entry := {| username := trimmed; available := negb (truthy ex);
                     checkedAt := now |}).
    change (localStorage (setResult (Some entry) s)) with (localStorage s).
    destruct (saveToHistory entry (localStorage s)) as [[u st]|err] eqn:S.
    2: { repeat split; intros [H|H]; now elim H. }
    repeat split. intros _. exists status, data, entry, u, st.
    repeat split; try assumption.
    intros ->. discriminate.
Qed.

Lemma VALIDATION_MESSAGE_shown : at_end VALIDATION_MESSAGE = false.
Proof. reflexivity. Qed.

(** X7. After a request has settled exactly one of the two banners is
    shown, provided no error with an empty message is involved. *)
Theorem one_banner_after_settlement
    (trimmed : jsstring) (s : State) (res : fetch_settlement) (now : jsstring) :
  (forall e, native_message e <> []) ->
  res <> FetchRejected (ErrorInstance []) ->
  (forall status, res <> FetchResponse status (JsonRejected (ErrorInstance []))) ->
  let s' := after_fetch trimmed s res now in
  xorb (error_shown s') (result_shown s') = true.
Proof.
  intros Hn H1 H2.
  assert (F : forall message st, message <> [] ->
            xorb (error_shown (catch (ErrorInstance message) st))
                 (result_shown (catch (ErrorInstance message) st)) = true).
  { intros message st Hm. unfold result_shown, error_shown. cbn.
    destruct message; [now elim Hm|]. cbn. now destruct (s_result st). }
  assert (G : forall st, xorb (error_shown (catch NotAnError st))
                              (result_shown (catch NotAnError st)) = true).
  { intros st. unfold result_shown, error_shown. cbn. now destruct (s_result st). }
  unfold after_fetch.
  destruct res as [[message|]|status [[message|]|data]]; cbn zeta.
  - apply F. intros ->. now elim H1.
  - apply G.
  - destruct (ok status); cbn [negb].
    + apply F. intros ->. now elim (H2 status).
    + apply F. discriminate.
  - destruct (ok status); cbn [negb]; [apply G|apply F; discriminate].
  - destruct (ok status); cbn [negb]; [|apply F; discriminate].
    destruct (read_exists data) as [ex|err]; [|apply F, Hn].
    destruct (saveToHistory _ _) as [[u st]|err]; [|apply F, Hn].
    unfold result_shown, error_shown. cbn.
    destruct (s_error s) as [[|c m]|]; reflexivity.
Qed.

End HandlerFacts.

(** ** Sessions *)

Section SessionFacts.
Context {host : Host}.

Lemma session_invariant (P : running -> Prop) :
  (forall act a, P a -> P (react act a)) ->
  forall acts a, P a -> P (session acts a).
Proof.
  intros Step acts. unfold session.
  induction acts as [|act acts IH]; intros a H; simpl; [exact H|].
  apply IH, Step, H.
Qed.

Lemma session_app (x y : list action) (a : running) :
  session (x ++ y) a = session y (session x a).
Proof. apply fold_left_app. Qed.

(** What a handler that calls [checkUsername] does to a session. *)
Lemma perform_check (nameOverride : option jsstring) (s0 : State) (a : running) :
  let trimmed := trim (name_or_input nameOverride s0) in
  let a' := perform (checkUsername nameOverride s0) trimmed a in
  s_history (ui a') = s_history s0
  /\ localStorage (ui a') = localStorage s0
  /\ ((inflight a' = inflight a /\ requests a' = requests a)
      \/ (acceptable_identifier trimmed
          /\ inflight a' = inflight a ++ [trimmed]
          /\ requests a' = requests a ++ [request_url trimmed])).
Proof.
  cbv zeta.
  destruct (checkUsername_cases nameOverride s0) as [[_ E]|[(_ & _ & E)|(H & E)]];
    rewrite E; cbn [perform ui inflight requests].
  - repeat split. now left.
  - repeat split. now left.
  - split; [reflexivity|]. split; [reflexivity|]. right.
    split; [exact H|]. split; reflexivity.
Qed.

(** What one event does to a session: a handler that leaves history and
    store alone and may issue one request for a valid name, a clearing, or
    a settlement of a request in flight. *)
Lemma react_cases (act : action) (a : running) :
  let a' := react act a in
  (s_history (ui a') = s_history (ui a)
   /\ localStorage (ui a') = localStorage (ui a)
   /\ ((inflight a' = inflight a /\ requests a' = requests a)
       \/ exists trimmed, acceptable_identifier trimmed
            /\ inflight a' = inflight a ++ [trimmed]
            /\ requests a' = requests a ++ [request_url trimmed]))
  \/ (ui a' = clearHistory (ui a)
      /\ inflight a' = inflight a /\ requests a' = requests a)
  \/ (exists i trimmed res now,
        nth_error (inflight a) i = Some trimmed
        /\ ui a' = after_fetch trimmed (ui a) res now
        /\ inflight a' = remove_nth i (inflight a)
        /\ requests a' = requests a).
Proof.
  cbv zeta.
  assert (Same : forall a0 : running,
            s_history (ui a0) = s_history (ui a0)
            /\ localStorage (ui a0) = localStorage (ui a0)
            /\ ((inflight a0 = inflight a0 /\ requests a0 = requests a0)
                \/ exists trimmed, acceptable_identifier trimmed
                     /\ inflight a0 = inflight a0 ++ [trimmed]
                     /\ requests a0 = requests a0 ++ [request_url trimmed]))
    by (intros; repeat split; now left).
  assert (Check : forall nameOverride s0,
            s_history s0 = s_history (ui a) ->
            localStorage s0 = localStorage (ui a) ->
            let a' := perform (checkUsername nameOverride s0)
                              (trim (name_or_input nameOverride s0)) a in
            s_history (ui a') = s_history (ui a)
            /\ localStorage (ui a') = localStorage (ui a)
            /\ ((inflight a' = inflight a /\ requests a' = requests a)
                \/ exists trimmed, acceptable_identifier trimmed
                     /\ inflight a' = inflight a ++ [trimmed]
                     /\ requests a' = requests a ++ [request_url trimmed])).
  { intros nameOverride s0 Eh Es. cbv zeta.
    destruct (perform_check nameOverride s0 a) as (A & B & C).
    rewrite A, B. repeat split; try assumption.
    destruct C as [C|(C1 & C2 & C3)]; [now left|right; eauto]. }
  destruct act as [value|pressed| |h| |i res now]; cbn [react].
  - left. cbn. repeat split. now left.
  - left. unfold handleKeyDown. destruct (jsstring_eqb pressed (js "Enter")).
    + apply (Check None (ui a)); reflexivity.
    + destruct a; cbn. repeat split. now left.
  - left. unfold clickCheck. destruct (button_disabled (ui a)).
    + destruct a; cbn. repeat split. now left.
    + apply (Check None (ui a)); reflexivity.
  - left. unfold handleHistoryClick.
    apply (Check (Some (username h)) (setUsername (username h) (ui a))); reflexivity.
  - right. left. cbn. repeat split.
  - destruct (nth_error (inflight a) i) as [trimmed|] eqn:E.
    + right. right. exists i, trimmed, res, now. cbn. repeat split. exact E.
    + left. apply Same.
Qed.

Lemma Forall_remove_nth {A} (P : A -> Prop) (i : nat) (l : list A) :
  Forall P l -> Forall P (remove_nth i l).
Proof.
  revert i; induction l as [|x l IH]; intros i H; [destruct i; exact H|].
  inversion H; subst. destruct i; simpl; auto.
Qed.

Lemma In_remove_nth {A} (i : nat) (l : list A) (x : A) :
  In x (remove_nth i l) -> In x l.
Proof.
  revert i; induction l as [|y l IH]; intros i; [destruct i; exact (fun H => H)|].
  destruct i; simpl; [auto|]. intros [H|H]; eauto.
Qed.

(** Only valid names are ever in flight. *)
Lemma inflight_acceptable (act : action) (a : running) :
  Forall acceptable_identifier (inflight a) ->
  Forall acceptable_identifier (inflight (react act a)).
Proof.
  intros H.
  destruct (react_cases act a)
    as [(_ & _ & [[-> _]|(t & Ht & -> & _)])|[(_ & -> & _)|(i & t & res & now & _ & _ & -> & _)]].
  - exact H.
  - apply Forall_app. split; [exact H|]. now constructor.
  - exact H.
  - now apply Forall_remove_nth.
Qed.

Lemma consistent_frame (s s' : State) :
  s_history s' = s_history s -> localStorage s' = localStorage s ->
  consistent s -> consistent s'.
Proof. intros Eh Es (l & A & B & C). exists l. now rewrite Eh, Es. Qed.

Lemma consistent_clearHistory (s : State) : consistent (clearHistory s).
Proof.
  exists []. repeat split; try reflexivity.
  - unfold MAX_HISTORY. simpl. lia.
  - constructor.
  - constructor.
Qed.

Lemma wellformed_updated (e : CheckResult) (l : list CheckResult) :
  acceptable_identifier (username e) ->
  wellformed_history l -> wellformed_history (updated e l).
Proof.
  intros He (_ & D & F). repeat split.
  - apply updated_length.
  - now apply updated_NoDup.
  - unfold updated. apply Forall_forall. intros h Hin.
    assert (Hin' : In h (e :: filtered e l)).
    { rewrite <- (firstn_skipn MAX_HISTORY (e :: filtered e l)).
      apply in_or_app. now left. }
    destruct Hin' as [<-|Hin']; [exact He|].
    unfold filtered in Hin'. apply filter_In in Hin' as [Hin' _].
    rewrite Forall_forall in F. now apply F.
Qed.

(** How the rest of [checkUsername] leaves history and store. *)
Lemma after_fetch_outcome
    (trimmed : jsstring) (s : State) (res : fetch_settlement) (now : jsstring) :
  let s' := after_fetch trimmed s res now in
  (s_history s' = s_history s /\ localStorage s' = localStorage s)
  \/ exists flag u st,
       saveToHistory {| username := trimmed; available := flag; checkedAt := now |}
                     (localStorage s) = Normal (u, st)
       /\ s_history s' = JArr u /\ localStorage s' = st.
Proof.
  unfold after_fetch.
  destruct res as [reason|status [reason|data]]; [now left| |].
  - destruct (ok status); now left.
  - destruct (ok status); cbn [negb]; [|now left].
    destruct (read_exists data) as [ex|err]; [|now left].
    set (entry := {| username := trimmed; available := negb (truthy ex);
                     checkedAt := now |}).
    change (localStorage (setResult (Some entry) s)) with (localStorage s).
    destruct (saveToHistory entry (localStorage s)) as [[u st]|err] eqn:S; [|now left].
    right. exists (negb (truthy ex)), u, st. repeat split. exact S.
Qed.

Lemma consistent_after_fetch
    (trimmed : jsstring) (s : State) (res : fetch_settlement) (now : jsstring) :
  acceptable_identifier trimmed -> consistent s ->
  consistent (after_fetch trimmed s res now).
Proof.
  intros Ht C.
  destruct (after_fetch_outcome trimmed s res now) as [[Eh Es]|(flag & u & st & S & Eh & Es)].
  - exact (consistent_frame _ _ Eh Es C).
  - destruct C as (l & A & B & W).
    set (entry := {| username := trimmed; available := flag; checkedAt := now |}) in *.
    rewrite (saveToHistory_entries entry l _ B) in S.
    assert (Eu : u = map entry_json (updated entry l)) by congruence.
    assert (Est : st = Some (JSON_stringify (JArr (map entry_json (updated entry l)))))
      by congruence.
    exists (updated entry l).
    split; [now rewrite Eh, Eu|]. split.
    + rewrite Es, Est. apply loadHistory_saved.
    + now apply wellformed_updated.
Qed.

Lemma consistent_react (act : action) (a : running) :
  Forall acceptable_identifier (inflight a) ->
  consistent (ui a) -> consistent (ui (react act a)).
Proof.
  intros F C.
  destruct (react_cases act a)
    as [(Eh & Es & _)|[(-> & _)|(i & t & res & now & Ei & -> & _)]].
  - exact (consistent_frame _ _ Eh Es C).
  - apply consistent_clearHistory.
  - apply consistent_after_fetch; [|exact C].
    rewrite Forall_forall in F. apply F. now apply nth_error_In in Ei.
Qed.

Lemma session_inflight_acceptable (acts : list action) (a : running) :
  Forall acceptable_identifier (inflight a) ->
  Forall acceptable_identifier (inflight (session acts a)).
Proof.
  apply (session_invariant (fun a => Forall acceptable_identifier (inflight a))).
  intros act a0. apply inflight_acceptable.
Qed.

Lemma session_consistent (acts : list action) (a : running) :
  Forall acceptable_identifier (inflight a) -> consistent (ui a) ->
  consistent (ui (session acts a)).
Proof.
  intros F C.
  apply (session_invariant
           (fun a => Forall acceptable_identifier (inflight a) /\ consistent (ui a)));
    [|now split].
  intros act a0 [F0 C0]. split; [now apply inflight_acceptable|now apply consistent_react].
Qed.

(** X8. A session that starts over a store holding a history as the
    component builds it keeps such a history through every sequence of
    events, requests settling in any order and with any outcome: the
    history shown is a list of at most [MAX_HISTORY] entries with distinct
    lower-cased usernames that all pass the validator, and the store
    holds the same list. *)
Theorem session_keeps_history_wellformed
    (store : storage) (l0 : list CheckResult) (acts : list action) :
  loadHistory store = JArr (map entry_json l0) ->
  wellformed_history l0 ->
  consistent (ui (session acts (boot store))).
Proof.
  intros E W. apply session_consistent; [constructor|].
  exists l0. repeat split; try exact E; apply W.
Qed.

(** X9. Whatever the store held when the component mounted, once the
    history is cleared the session holds a history as the component
    builds it, in the state and in the store, through all later events. *)
Theorem clearing_repairs_the_store
    (store : storage) (before after : list action) :
  consistent (ui (session (before ++ ClickClear :: after) (boot store))).
Proof.
  rewrite session_app.
  change (session (ClickClear :: after) (session before (boot store)))
    with (session after (react ClickClear (session before (boot store)))).
  apply session_consistent.
  - apply inflight_acceptable, session_inflight_acceptable. constructor.
  - apply consistent_clearHistory.
Qed.

(** X10. Every request of a session, whatever the store and the events,
    goes to the worker URL with a [login] parameter that is a name passing
    the validator. *)
Theorem requests_are_for_valid_names
    (store : storage) (acts : list action) (url : jsstring) :
  In url (requests (session acts (boot store))) ->
  exists name, acceptable_identifier name /\ url = request_url name.
Proof.
  revert url. apply Forall_forall.
  apply (session_invariant
           (fun a => Forall (fun url => exists name,
                                acceptable_identifier name /\ url = request_url name)
                            (requests a))); [|constructor].
  intros act a H.
  destruct (react_cases act a)
    as [(_ & _ & [[_ ->]|(t & Ht & _ & ->)])|[(_ & _ & ->)|(i & t & res & now & _ & _ & _ & ->)]];
    try exact H.
  apply Forall_app. split; [exact H|]. constructor; [eauto|constructor].
Qed.

Lemma entry_json_injective (e e' : CheckResult) : entry_json e = entry_json e' -> e = e'.
Proof.
  destruct e as [u a t], e' as [u' a' t']. unfold entry_json. cbn.
  intros H. injection H as -> -> ->. reflexivity.
Qed.

Lemma map_entry_json_injective (l l' : list CheckResult) :
  map entry_json l = map entry_json l' -> l = l'.
Proof.
  revert l'; induction l as [|e l IH]; intros [|e' l']; cbn [map]; try discriminate;
    [reflexivity|].
  intros H.
  assert (He : entry_json e = entry_json e') by congruence.
  assert (Hl : map entry_json l = map entry_json l') by congruence.
  f_equal; [now apply entry_json_injective|now apply IH].
Qed.

Lemma looked_up_react (act : action) (a : running) :
  consistent (ui a) -> looked_up a -> looked_up (react act a).
Proof.
  intros C [Pi Ph].
  destruct (react_cases act a)
    as [(Eh & _ & [[Ei Er]|(t & _ & Ei & Er)])
       |[(Eu & Ei & Er)|(i & t & res & now & En & Eu & Ei & Er)]];
    unfold looked_up; rewrite ?Ei, ?Er.
  - rewrite Eh. now split.
  - rewrite Eh. split.
    + intros t' H. apply in_or_app. apply in_app_or in H as [H|[<-|[]]].
      * left. now apply Pi.
      * right. now left.
    + intros l E h H. apply in_or_app. left. now apply (Ph l).
  - rewrite Eu. split; [exact Pi|].
    intros l E h H. change (JArr [] = JArr (map entry_json l)) in E.
    destruct l; [elim H|discriminate].
  - split.
    + intros t' H. apply Pi. now apply In_remove_nth in H.
    + rewrite Eu. intros l E h H.
      destruct (after_fetch_outcome t (ui a) res now)
        as [[Eh _]|(flag & u & st & S & Eh & _)].
      * rewrite Eh in E. now apply (Ph l).
      * destruct C as (l0 & A & B & _).
        set (entry := {| username := t; available := flag; checkedAt := now |}) in *.
        rewrite (saveToHistory_entries entry l0 _ B) in S.
        assert (Eu' : u = map entry_json (updated entry l0)) by congruence.
        rewrite Eh, Eu' in E.
        assert (E' : map entry_json (updated entry l0) = map entry_json l) by congruence.
        apply map_entry_json_injective in E'. subst l.
        unfold updated in H.
        assert (H' : In h (entry :: filtered entry l0)).
        { rewrite <- (firstn_skipn MAX_HISTORY (entry :: filtered entry l0)).
          apply in_or_app. now left. }
        destruct H' as [<-|H'].
        -- apply Pi. now apply nth_error_In in En.
        -- unfold filtered in H'. apply filter_In in H' as [H' _]. now apply (Ph l0).
Qed.

(** X11. In a session that starts with an empty history, every entry of
    the history shown has a username for which a request was issued. *)
Theorem history_entries_were_looked_up (store : storage) (acts : list action) :
  loadHistory store = JArr [] ->
  exists l,
    s_history (ui (session acts (boot store))) = JArr (map entry_json l)
    /\ forall h, In h l ->
         In (request_url (username h)) (requests (session acts (boot store))).
Proof.
  intros E.
  assert (I : Forall acceptable_identifier (inflight (session acts (boot store)))
              /\ consistent (ui (session acts (boot store)))
              /\ looked_up (session acts (boot store))).
  { apply (session_invariant
             (fun a => Forall acceptable_identifier (inflight a)
                       /\ consistent (ui a) /\ looked_up a)).
    - intros act a (F & C & L). split; [now apply inflight_acceptable|].
      split; [now apply consistent_react|now apply looked_up_react].
    - split; [constructor|]. split.
      + exists []. repeat split; try exact E.
        * unfold MAX_HISTORY. simpl. lia.
        * constructor.
        * constructor.
      + split; [intros t []|]. intros l El h H.
        change (loadHistory store = JArr (map entry_json l)) in El.
        rewrite E in El. destruct l; [elim H|discriminate]. }
  destruct I as (_ & (l & A & _) & _ & L).
  exists l. split; [exact A|]. now apply L.
Qed.

(** X12. A click on an entry of a history as the component builds it
    sets the input to the entry's name and requests that name; when the
    answer has a status in 200..299 and a boolean [exists], the history
    becomes the new result for the name followed by the other entries in
    their order, as long as before. *)
Theorem history_click_rechecks_entry
    (s : State) (l : list CheckResult) (h : CheckResult)
    (status : N) (props : list (jsstring * json)) (exists_ : bool) (now : jsstring) :
  let new := {| username := username h; available := negb exists_; checkedAt := now |} in
  loadHistory (localStorage s) = JArr (map entry_json l) ->
  wellformed_history l ->
  In h l ->
  ok status = true ->
  get_prop (js "exists") props = Some (JBool exists_) ->
  exists pending resume,
    handleHistoryClick h s = Await (request_url (username h)) pending resume
    /\ s_username pending = username h
    /\ let s' := resume (FetchResponse status (JsonValue (JObj props))) now in
       s_result s' = Some new
       /\ s_history s' = JArr (map entry_json (new :: filtered new l))
       /\ length (new :: filtered new l) = length l
       /\ loadHistory (localStorage s') = s_history s'.
Proof.
  intros new El (Wl & Wd & Wf) Hin Hok Hex.
  assert (Ha : acceptable_identifier (username h)).
  { rewrite Forall_forall in Wf. now apply Wf. }
  pose proof (checkUsername_valid (Some (username h)) (setUsername (username h) s)) as V.
  cbv zeta in V. cbn [name_or_input] in V.
  rewrite (trim_acceptable _ Ha) in V. specialize (V Ha).
  do 2 eexists. split; [exact V|]. split; [reflexivity|].
  unfold after_fetch. rewrite Hok. cbn [negb read_exists]. rewrite Hex. cbn [truthy].
  fold new.
  change (localStorage (setResult (Some new) (setResult None (setError None
            (setLoading true (setUsername (username h) s))))))
    with (localStorage s).
  rewrite (saveToHistory_entries new l _ El).
  cbn [s_history s_result localStorage setLoading setHistory setStorage setResult setError].
  assert (F : S (length (filtered new l)) = length l)
    by (apply (filter_key_length l h Wd Hin)).
  assert (U : updated new l = new :: filtered new l).
  { rewrite updated_cons. f_equal. apply firstn_short.
    unfold MAX_HISTORY in Wl. lia. }
  rewrite U. split; [reflexivity|]. split; [reflexivity|]. split; [exact F|].
  rewrite <- U. apply loadHistory_saved.
Qed.

(** X13. [loading] only disables the button: while it is true a click on
    the button does nothing, and the Enter key, and a click on a history
    entry, still issue a request for a valid name. *)
Theorem loading_blocks_only_the_button (s : State) (h : CheckResult) :
  s_loading s = true ->
  acceptable_identifier (trim (s_username s)) ->
  acceptable_identifier (username h) ->
  clickCheck s = Return s
  /\ (exists pending resume,
        handleKeyDown (js "Enter") s
        = Await (request_url (trim (s_username s))) pending resume)
  /\ (exists pending resume,
        handleHistoryClick h s = Await (request_url (username h)) pending resume).
Proof.
  intros L Hu Hh. split; [|split].
  - unfold clickCheck, button_disabled. now rewrite L.
  - do 2 eexists. unfold handleKeyDown. cbn [jsstring_eqb].
    change (jsstring_eqb (js "Enter") (js "Enter")) with true. cbv iota.
    exact (checkUsername_valid None s Hu).
  - pose proof (checkUsername_valid (Some (username h)) (setUsername (username h) s)) as V.
    cbv zeta in V. cbn [name_or_input] in V.
    rewrite (trim_acceptable _ Hh) in V. do 2 eexists. exact (V Hh).
Qed.

(** X14. When the button is enabled, the Enter key does what a click on
    the button does, and the click is never without effect: either a
    request is issued, [loading] is set and both banners are hidden, or
    the validation message is shown; a key other than Enter does
    nothing. *)
Theorem enabled_button_has_an_effect (s : State) :
  button_disabled s = false ->
  handleKeyDown (js "Enter") s = clickCheck s
  /\ ((exists url pending resume,
         clickCheck s = Await url pending resume
         /\ s_loading pending = true
         /\ error_shown pending = false /\ result_shown pending = false)
      \/ (exists s', clickCheck s = Return s'
                     /\ error_shown s' = true /\ result_shown s' = false))
  /\ forall pressed, pressed <> js "Enter" -> handleKeyDown pressed s = Return s.
Proof.
  intros D. unfold clickCheck. rewrite D. split; [reflexivity|]. split.
  - unfold button_disabled in D. apply orb_false_iff in D as [_ D].
    destruct (checkUsername_cases None s) as [[E _]|[(_ & _ & E)|(_ & E)]].
    + cbn [name_or_input] in E. rewrite E in D. discriminate.
    + right. eexists. split; [exact E|]. split; reflexivity.
    + left. do 3 eexists. split; [exact E|]. repeat split.
  - intros pressed N. unfold handleKeyDown.
    destruct (jsstring_eqb pressed (js "Enter")) eqn:E; [|reflexivity].
    now apply jsstring_eqb_eq in E.
Qed.

End SessionFacts.

(** ** A text cut short *)

Section TruncationFacts.
Context {host : Host}.

Lemma skip_ws_app (s : jsstring) (c : N) (s1 q : jsstring) :
  skip_ws s = c :: s1 -> skip_ws (s ++ q) = c :: s1 ++ q.
Proof.
  induction s as [|x s IH]; simpl; [discriminate|].
  destruct (is_json_ws x); [exact IH|]. intros E; injection E as <- <-. reflexivity.
Qed.

Lemma skip_ws_nil_app (s q : jsstring) :
  skip_ws s = [] -> skip_ws (s ++ q) = skip_ws q.
Proof.
  induction s as [|x s IH]; simpl; [reflexivity|].
  destruct (is_json_ws x); [exact IH|discriminate].
Qed.

Lemma cons_unit_app (u : N) (p p' : option (jsstring * jsstring)) (q : jsstring) :
  (forall str r, p = Some (str, r) -> p' = Some (str, r ++ q)) ->
  forall str r, cons_unit u p = Some (str, r) -> cons_unit u p' = Some (str, r ++ q).
Proof.
  intros H str r. destruct p as [[str0 r0]|]; simpl; [|discriminate].
  intros E; injection E as <- <-. now rewrite (H str0 r0 eq_refl).
Qed.

Lemma parse_chars_app (n : nat) (q : jsstring) :
  forall s str r, (length s <= n)%nat ->
    parse_chars s = Some (str, r) -> parse_chars (s ++ q) = Some (str, r ++ q).
Proof.
  induction n as [|n IH]; intros [|c s1] str r L; simpl in L |- *;
    try discriminate; try lia.
  destruct (c =? 34).
  { intros E; injection E as <- <-. reflexivity. }
  destruct (c =? 92).
  - destruct s1 as [|e s2]; [discriminate|]. simpl in L. simpl.
    destruct (e =? 117).
    + destruct s2 as [|h1 [|h2 [|h3 [|h4 s3]]]]; try discriminate. simpl.
      destruct (hex4 h1 h2 h3 h4); [|discriminate]. simpl in L.
      apply cons_unit_app. intros; apply IH; [lia|assumption].
    + destruct (simple_escape e); [|discriminate].
      apply cons_unit_app. intros; apply IH; [lia|assumption].
  - destruct (c <? 32); [discriminate|].
    apply cons_unit_app. intros; apply IH; [lia|assumption].
Qed.

Lemma strip_prefix_app (p s r q : jsstring) :
  strip_prefix p s = Some r -> strip_prefix p (s ++ q) = Some (r ++ q).
Proof.
  revert s; induction p as [|x p IH]; intros s; simpl.
  - destruct s; intros E; injection E as <-; reflexivity.
  - destruct s as [|y s]; [discriminate|]. simpl.
    destruct (x =? y); [apply IH|discriminate].
Qed.

Lemma strip_prefix_head (x : N) (p : jsstring) (c : N) (s r : jsstring) :
  strip_prefix (x :: p) (c :: s) = Some r -> c = x.
Proof.
  simpl. destruct (N.eqb_spec x c); [congruence|discriminate].
Qed.

Lemma span_digits_app (s ds r q : jsstring) :
  span_digits s = (ds, r) -> r <> [] -> span_digits (s ++ q) = (ds, r ++ q).
Proof.
  revert ds; induction s as [|c s IH]; simpl; intros ds.
  - intros E; injection E as <- <-. intros H; now elim H.
  - destruct (between 48 57 c).
    + destruct (span_digits s) as [ds' r'] eqn:E'. intros E; injection E as <- <-.
      intros H. now rewrite (IH ds' eq_refl H).
    + intros E; injection E as <- <-. reflexivity.
Qed.

Lemma lex_int_app (s i r q : jsstring) :
  lex_int s = Some (i, r) -> r <> [] -> lex_int (s ++ q) = Some (i, r ++ q).
Proof.
  destruct s as [|c s1]; simpl; [discriminate|].
  destruct (c =? 48).
  { intros E; injection E as <- <-. reflexivity. }
  destruct (between 49 57 c); [|discriminate].
  destruct (span_digits s1) as [ds r'] eqn:E'. intros E; injection E as <- <-.
  intros H. now rewrite (span_digits_app _ _ _ q E' H).
Qed.

Lemma lex_frac_app (s f r q : jsstring) :
  lex_frac s = Some (f, r) -> r <> [] -> lex_frac (s ++ q) = Some (f, r ++ q).
Proof.
  destruct s as [|c s1]; simpl.
  { intros E; injection E as <- <-. intros H; now elim H. }
  destruct (c =? 46).
  - destruct (span_digits s1) as [[|d ds] r'] eqn:E'; [discriminate|].
    intros E; injection E as <- <-. intros H.
    now rewrite (span_digits_app _ _ _ q E' H).
  - intros E; injection E as <- <-. reflexivity.
Qed.

Lemma lex_exp_app (s e r q : jsstring) :
  lex_exp s = Some (e, r) -> r <> [] -> lex_exp (s ++ q) = Some (e, r ++ q).
Proof.
  destruct s as [|c s1]; simpl.
  { intros E; injection E as <- <-. intros H; now elim H. }
  destruct ((c =? 101) || (c =? 69)).
  - destruct s1 as [|d s2]; simpl; [discriminate|].
    destruct ((d =? 43) || (d =? 45)).
    + destruct (span_digits s2) as [[|x ds] r'] eqn:E'; [discriminate|].
      intros E; injection E as <- <-. intros H.
      now rewrite (span_digits_app _ _ _ q E' H).
    + destruct (span_digits (d :: s2)) as [[|x ds] r'] eqn:E'; [discriminate|].
      intros E; injection E as <- <-. intros H.
      change (d :: s2 ++ q) with ((d :: s2) ++ q).
      now rewrite (span_digits_app _ _ _ q E' H).
  - intros E; injection E as <- <-. reflexivity.
Qed.

Lemma nonempty_longer (r s : jsstring) :
  (length r <= length s)%nat -> r <> [] -> s <> [].
Proof. destruct s; [destruct r; simpl; [tauto|lia]|discriminate]. Qed.

Lemma lex_number_app (s lexeme r q : jsstring) :
  lex_number s = Some (lexeme, r) -> r <> [] ->
  lex_number (s ++ q) = Some (lexeme, r ++ q).
Proof.
  unfold lex_number.
  assert (H : forall sign s1,
    match lex_int s1 with
    | Some (i, s2) =>
      match lex_frac s2 with
      | Some (f, s3) =>
        match lex_exp s3 with
        | Some (e, s4) => Some (sign ++ i ++ f ++ e, s4)
        | None => None
        end
      | None => None
      end
    | None => None
    end = Some (lexeme, r) -> r <> [] ->
    match lex_int (s1 ++ q) with
    | Some (i, s2) =>
      match lex_frac s2 with
      | Some (f, s3) =>
        match lex_exp s3 with
        | Some (e, s4) => Some (sign ++ i ++ f ++ e, s4)
        | None => None
        end
      | None => None
      end
    | None => None
    end = Some (lexeme, r ++ q)).
  { intros sign s1.
    destruct (lex_int s1) as [[i s2]|] eqn:E1; [|discriminate].
    destruct (lex_frac s2) as [[f s3]|] eqn:E2; [|discriminate].
    destruct (lex_exp s3) as [[e s4]|] eqn:E3; [|discriminate].
    intros E; injection E as <- <-. intros Hr.
    pose proof (nonempty_longer _ _ (lex_exp_length _ _ _ E3) Hr) as H3.
    pose proof (nonempty_longer _ _ (lex_frac_length _ _ _ E2) H3) as H2.
    now rewrite (lex_int_app _ _ _ q E1 H2), (lex_frac_app _ _ _ q E2 H3),
      (lex_exp_app _ _ _ q E3 Hr). }
  destruct s as [|c s'].
  - intros E Hr. exfalso. simpl in E. discriminate.
  - simpl app. cbv beta iota. destruct (c =? 45).
    + exact (H [c] s').
    + exact (H [] (c :: s')).
Qed.

Lemma lex_number_head (c : N) (s lexeme r : jsstring) :
  lex_number (c :: s) = Some (lexeme, r) -> c = 45 \/ 48 <= c <= 57.
Proof.
  unfold lex_number. destruct (N.eqb_spec c 45) as [->|N]; [now left|].
  right. simpl in H. destruct (N.eqb_spec c 48) as [->|N']; [lia|].
  destruct (between 49 57 c) eqn:B; [|discriminate].
  apply between_spec in B. lia.
Qed.

Lemma parse_scalar_app (s : jsstring) (v : json) (r q : jsstring) :
  parse_scalar s = Parsed v r ->
  r <> [] \/ (forall n, v <> JNum n) ->
  parse_scalar (s ++ q) = Parsed v (r ++ q).
Proof.
  unfold parse_scalar. destruct s as [|c s1]; [discriminate|]. simpl app.
  cbv beta iota.
  destruct (c =? 34).
  { destruct (parse_chars s1) as [[str r']|] eqn:E; [|discriminate].
    intros H _; injection H as <- <-.
    now rewrite (parse_chars_app (length s1) q s1 str r' (le_n _) E). }
  destruct (strip_prefix (js "true") (c :: s1)) eqn:E1.
  { intros H _; injection H as <- <-.
    pose proof (strip_prefix_app _ _ _ q E1) as E1'.
    change ((c :: s1) ++ q) with (c :: s1 ++ q) in E1'. now rewrite E1'. }
  destruct (strip_prefix (js "false") (c :: s1)) eqn:E2.
  { intros H _; injection H as <- <-.
    assert (Hc : c = 102) by exact (strip_prefix_head _ _ _ _ _ E2). subst c.
    pose proof (strip_prefix_app _ _ _ q E2) as E2'.
    change ((102 :: s1) ++ q) with (102 :: s1 ++ q) in E2'.
    change (strip_prefix (js "true") (102 :: s1 ++ q)) with (@None jsstring).
    now rewrite E2'. }
  destruct (strip_prefix (js "null") (c :: s1)) eqn:E3.
  { intros H _; injection H as <- <-.
    assert (Hc : c = 110) by exact (strip_prefix_head _ _ _ _ _ E3). subst c.
    pose proof (strip_prefix_app _ _ _ q E3) as E3'.
    change ((110 :: s1) ++ q) with (110 :: s1 ++ q) in E3'.
    change (strip_prefix (js "true") (110 :: s1 ++ q)) with (@None jsstring).
    change (strip_prefix (js "false") (110 :: s1 ++ q)) with (@None jsstring).
    now rewrite E3'. }
  destruct (lex_number (c :: s1)) as [[lexeme r']|] eqn:E4; [|discriminate].
  intros H Hr; injection H as <- <-.
  destruct Hr as [Hr|Hr]; [|now elim (Hr (parse_number lexeme))].
  pose proof (lex_number_head _ _ _ _ E4) as Hc.
  pose proof (lex_number_app _ _ _ q E4 Hr) as E4'.
  change ((c :: s1) ++ q) with (c :: s1 ++ q) in E4'. rewrite E4'.
  assert (T : forall x p, x <> c -> strip_prefix (x :: p) (c :: s1 ++ q) = None).
  { intros x p N. simpl. now rewrite (proj2 (N.eqb_neq x c) N). }
  change (js "true") with (116 :: js "rue").
  change (js "false") with (102 :: js "alse").
  change (js "null") with (110 :: js "ull").
  rewrite (T 116), (T 102), (T 110) by lia. reflexivity.
Qed.

(** What the reader finds at the front of a text it finds at the front of
    every longer text; only a number that ends the text could go on. *)
Lemma parse_app (f : nat) (q : jsstring) :
  (forall s v r, parse_value f s = Parsed v r ->
     r <> [] \/ (forall n, v <> JNum n) ->
     parse_value f (s ++ q) = Parsed v (r ++ q))
  /\ (forall s vs r, parse_elements f s = Parsed vs r ->
       parse_elements f (s ++ q) = Parsed vs (r ++ q))
  /\ (forall s ms r, parse_members f s = Parsed ms r ->
       parse_members f (s ++ q) = Parsed ms (r ++ q)).
Proof.
  induction f as [|f (IHv & IHe & IHm)]; [repeat split; discriminate|].
  repeat split.
  - intros s v r. rewrite !parse_value_S.
    destruct (skip_ws s) as [|c s1] eqn:Es; [discriminate|].
    rewrite (skip_ws_app _ _ _ q Es).
    destruct (c =? 91); [|destruct (c =? 123)].
    + destruct (skip_ws s1) as [|d s2] eqn:Es1; [discriminate|].
      rewrite (skip_ws_app _ _ _ q Es1). destruct (d =? 93).
      * intros E _; injection E as <- <-. reflexivity.
      * intros E _. apply bind_Parsed in E as (vs & r' & E1 & E2).
        injection E2 as <- <-. now rewrite (IHe _ _ _ E1).
    + destruct (skip_ws s1) as [|d s2] eqn:Es1; [discriminate|].
      rewrite (skip_ws_app _ _ _ q Es1). destruct (d =? 125).
      * intros E _; injection E as <- <-. reflexivity.
      * intros E _. apply bind_Parsed in E as (ms & r' & E1 & E2).
        injection E2 as <- <-. now rewrite (IHm _ _ _ E1).
    + intros E Hr. exact (parse_scalar_app (c :: s1) v r q E Hr).
  - intros s vs r. rewrite !parse_elements_S. intros E.
    apply bind_Parsed in E as (v & r' & E1 & E2). unfold elements_tail in E2.
    destruct (skip_ws r') as [|c r1] eqn:Er; [discriminate|].
    assert (Hr : r' <> []) by (intros ->; discriminate).
    rewrite (IHv _ _ _ E1 (or_introl Hr)). cbn [bind]. unfold elements_tail.
    rewrite (skip_ws_app _ _ _ q Er).
    destruct (c =? 44); [|destruct (c =? 93)].
    + apply bind_Parsed in E2 as (vs' & r2 & E3 & E4). injection E4 as <- <-.
      now rewrite (IHe _ _ _ E3).
    + injection E2 as <- <-. reflexivity.
    + discriminate.
  - intros s ms r. rewrite !parse_members_S.
    destruct (skip_ws s) as [|c s1] eqn:Es; [discriminate|].
    rewrite (skip_ws_app _ _ _ q Es). destruct (c =? 34); [|discriminate].
    destruct (parse_chars s1) as [[k r0]|] eqn:Ek; [|discriminate].
    rewrite (parse_chars_app (length s1) q s1 k r0 (le_n _) Ek).
    destruct (skip_ws r0) as [|d r1] eqn:Er0; [discriminate|].
    rewrite (skip_ws_app _ _ _ q Er0). destruct (d =? 58); [|discriminate].
    intros E. apply bind_Parsed in E as (v & r2 & E1 & E2).
    unfold members_tail in E2.
    destruct (skip_ws r2) as [|x r3] eqn:Er2; [discriminate|].
    assert (Hr : r2 <> []) by (intros ->; discriminate).
    rewrite (IHv _ _ _ E1 (or_introl Hr)). cbn [bind]. unfold members_tail.
    rewrite (skip_ws_app _ _ _ q Er2).
    destruct (x =? 44); [|destruct (x =? 125)].
    + apply bind_Parsed in E2 as (ms' & r4 & E3 & E4). injection E4 as <- <-.
      now rewrite (IHm _ _ _ E3).
    + injection E2 as <- <-. reflexivity.
    + discriminate.
Qed.

Lemma parse_value_bracket (f : nat) (s : jsstring) (v : json) (r : jsstring) :
  parse_value f (91 :: s) = Parsed v r -> forall n, v <> JNum n.
Proof.
  destruct f as [|f]; [discriminate|]. rewrite parse_value_S.
  change (skip_ws (91 :: s)) with (91 :: s). cbv beta iota.
  change (91 =? 91) with true. cbv iota.
  destruct (skip_ws s) as [|d s2]; [discriminate|].
  destruct (d =? 93).
  - intros E; injection E as <- _. discriminate.
  - intros E. apply bind_Parsed in E as (vs & r' & _ & E). injection E as <- _.
    discriminate.
Qed.

Lemma skip_ws_nil (s : jsstring) :
  skip_ws s = [] -> Forall (fun c => is_json_ws c = true) s.
Proof.
  induction s as [|c s IH]; simpl; [constructor|].
  destruct (is_json_ws c) eqn:E; [|discriminate]. auto.
Qed.

(** X15. A persisted history cut short at any place is not JSON, and
    [loadHistory] reads it as the empty list. *)
Theorem truncated_history_loads_empty (l : list CheckResult) (p q : jsstring) :
  JSON_stringify (JArr (map entry_json l)) = p ++ q ->
  q <> [] ->
  JSON_parse p = None /\ loadHistory (Some p) = JArr [].
Proof.
  intros T Q.
  enough (J : JSON_parse p = None).
  { split; [exact J|]. unfold loadHistory. now rewrite J. }
  destruct (JSON_parse p) as [v|] eqn:J; [exfalso|reflexivity].
  pose proof (JSON_parse_history l) as JT. rewrite T in JT.
  rewrite stringify_history in T. unfold history_text in T.
  unfold JSON_parse in J.
  destruct (parse_value (S (2 * length p)) p) as [v' r| |] eqn:P; try discriminate.
  destruct (skip_ws r) eqn:W; [|discriminate]. injection J as ->.
  destruct p as [|c p'].
  { rewrite parse_value_S in P. discriminate. }
  assert (c = 91) by (simpl in T; congruence). subst c.
  pose proof (proj1 (parse_app _ q) _ _ _ P (or_intror (parse_value_bracket _ _ _ _ P)))
    as P'.
  assert (PT : parse_value (S (2 * length ((91 :: p') ++ q))) ((91 :: p') ++ q)
               = Parsed v (r ++ q)).
  { rewrite <- P'. apply parse_value_more_fuel.
    - rewrite length_app. lia.
    - rewrite P'. discriminate. }
  unfold JSON_parse in JT. rewrite PT in JT.
  rewrite (skip_ws_nil_app _ q W) in JT.
  destruct (skip_ws q) eqn:Wq; [|discriminate].
  apply skip_ws_nil in Wq.
  destruct (exists_last Q) as (q' & x & ->).
  apply Forall_app in Wq as [_ Wx]. inversion Wx as [|? ? Hx _]; subst.
  change (91 :: join_comma (map entry_text l) ++ [93])
    with ((91 :: join_comma (map entry_text l)) ++ [93]) in T.
  rewrite app_assoc in T. apply app_inj_tail in T as [_ <-].
  discriminate Hx.
Qed.

End TruncationFacts.

(** ** The handlers and sessions at sample inputs *)

Section MoreSamples.
#[local] Existing Instance ascii_host.

Lemma saveToHistory_then_loadHistory_witness :
  loadHistory None = JArr (map entry_json [])
  /\ exists (rest : list json) (store' : storage),
      saveToHistory shroud_taken None = Normal (entry_json shroud_taken :: rest, store')
      /\ loadHistory store' = JArr (entry_json shroud_taken :: rest).
Proof.
  split; [reflexivity|].
  apply (saveToHistory_then_loadHistory None [] shroud_taken). reflexivity.
Defined.

Lemma missing_exists_means_available_witness :
  ok 200 = true
  /\ get_prop (js "exists") [(js "error", JStr (js "Missing login param"))] = None
  /\ s_result (after_fetch (js "shroud") initial
                 (FetchResponse 200
                    (JsonValue (JObj [(js "error", JStr (js "Missing login param"))])))
                 time1)
     = Some {| username := js "shroud"; available := true; checkedAt := time1 |}.
Proof.
  split; [reflexivity|]. split; [reflexivity|].
  apply (missing_exists_means_available (js "shroud") initial 200
           [(js "error", JStr (js "Missing login param"))] time1); reflexivity.
Defined.

Lemma native_messages_not_empty : forall e, native_message e <> [].
Proof. intros []; discriminate. Qed.

Lemma one_banner_after_settlement_witness :
  xorb (error_shown (after_fetch (js "shroud") initial
                       (FetchResponse 503 (JsonRejected NotAnError)) time1))
       (result_shown (after_fetch (js "shroud") initial
                        (FetchResponse 503 (JsonRejected NotAnError)) time1))
  = true.
Proof.
  apply (one_banner_after_settlement (js "shroud") initial
           (FetchResponse 503 (JsonRejected NotAnError)) time1).
  - exact native_messages_not_empty.
  - discriminate.
  - intros status. discriminate.
Defined.

Lemma wellformed_nil : wellformed_history [].
Proof.
  repeat split; [unfold MAX_HISTORY; simpl; lia|constructor|constructor].
Qed.

Lemma session_keeps_history_wellformed_witness :
  loadHistory None = JArr (map entry_json [])
  /\ wellformed_history []
  /\ consistent (ui (session sample_events (boot None))).
Proof.
  split; [reflexivity|]. split; [exact wellformed_nil|].
  apply (session_keeps_history_wellformed None [] sample_events);
    [reflexivity|exact wellformed_nil].
Defined.

Lemma requests_are_for_valid_names_witness :
  In (request_url (js "ninja_99")) (requests (session sample_events (boot None)))
  /\ exists name, acceptable_identifier name
                  /\ request_url (js "ninja_99") = request_url name.
Proof.
  assert (H : In (request_url (js "ninja_99"))
                (requests (session sample_events (boot None))))
    by (right; left; reflexivity).
  split; [exact H|].
  apply (requests_are_for_valid_names None sample_events _ H).
Defined.

Lemma history_entries_were_looked_up_witness :
  loadHistory None = JArr []
  /\ exists l,
      s_history (ui (session sample_events (boot None))) = JArr (map entry_json l)
      /\ forall h, In h l ->
           In (request_url (username h)) (requests (session sample_events (boot None))).
Proof.
  split; [reflexivity|].
  apply (history_entries_were_looked_up None sample_events). reflexivity.
Defined.

Lemma acceptable_other : acceptable_identifier (js "other").
Proof. apply isValidUsername_spec. reflexivity. Qed.

Lemma wellformed_sample : wellformed_history [sample "other"; shroud_taken].
Proof.
  split; [unfold MAX_HISTORY; simpl; lia|]. split.
  - constructor; [|constructor; [intros []|constructor]].
    intros [H|[]]. discriminate H.
  - constructor; [exact acceptable_other|].
    constructor; [exact acceptable_shroud|constructor].
Qed.

Lemma history_click_rechecks_entry_witness :
  let s := setStorage shroud_store initial in
  let l := [sample "other"; shroud_taken] in
  let new := {| username := js "shroud"; available := negb false; checkedAt := time2 |} in
  exists pending resume,
    handleHistoryClick shroud_taken s = Await (request_url (js "shroud")) pending resume
    /\ s_username pending = js "shroud"
    /\ let s' := resume (FetchResponse 200
                           (JsonValue (JObj [(js "exists", JBool false)]))) time2 in
       s_result s' = Some new
       /\ s_history s' = JArr (map entry_json (new :: filtered new l))
       /\ length (new :: filtered new l) = length l
       /\ loadHistory (localStorage s') = s_history s'.
Proof.
  apply (history_click_rechecks_entry (setStorage shroud_store initial)
           [sample "other"; shroud_taken] shroud_taken 200
           [(js "exists", JBool false)] false time2).
  - apply loadHistory_saved.
  - exact wellformed_sample.
  - right. now left.
  - reflexivity.
  - reflexivity.
Defined.

Lemma loading_blocks_only_the_button_witness :
  let s := setLoading true (setUsername (js "shroud") initial) in
  clickCheck s = Return s
  /\ (exists pending resume,
        handleKeyDown (js "Enter") s
        = Await (request_url (trim (s_username s))) pending resume)
  /\ (exists pending resume,
        handleHistoryClick (sample "other") s
        = Await (request_url (js "other")) pending resume).
Proof.
  apply (loading_blocks_only_the_button
           (setLoading true (setUsername (js "shroud") initial)) (sample "other")).
  - reflexivity.
  - exact acceptable_shroud.
  - exact acceptable_other.
Defined.

Lemma enabled_button_has_an_effect_witness :
  let s := setUsername (js "ab") initial in
  button_disabled s = false
  /\ handleKeyDown (js "Enter") s = clickCheck s
  /\ ((exists url pending resume,
         clickCheck s = Await url pending resume
         /\ s_loading pending = true
         /\ error_shown pending = false /\ result_shown pending = false)
      \/ (exists s', clickCheck s = Return s'
                     /\ error_shown s' = true /\ result_shown s' = false))
  /\ forall pressed, pressed <> js "Enter" -> handleKeyDown pressed s = Return s.
Proof.
  split; [reflexivity|].
  apply (enabled_button_has_an_effect (setUsername (js "ab") initial)). reflexivity.
Defined.

Lemma truncated_history_loads_empty_witness :
  let text := JSON_stringify (JArr (map entry_json [shroud_taken])) in
  text = firstn 40 text ++ skipn 40 text
  /\ skipn 40 text <> []
  /\ JSON_parse (firstn 40 text) = None
  /\ loadHistory (Some (firstn 40 text)) = JArr [].
Proof.
  cbv zeta.
  assert (A : JSON_stringify (JArr (map entry_json [shroud_taken]))
              = firstn 40 (JSON_stringify (JArr (map entry_json [shroud_taken])))
                ++ skipn 40 (JSON_stringify (JArr (map entry_json [shroud_taken]))))
    by (symmetry; apply firstn_skipn).
  assert (B : skipn 40 (JSON_stringify (JArr (map entry_json [shroud_taken]))) <> [])
    by (vm_compute; discriminate).
  split; [exact A|]. split; [exact B|].
  exact (truncated_history_loads_empty [shroud_taken] _ _ A B).
Defined.

(** A session: two requests in flight at once, settled in the other order. *)
Example sample_session :
  s_history (ui (session sample_events (boot None)))
  = JArr (map entry_json
            [{| username := js "shroud"; available := false; checkedAt := time1 |};
             {| username := js "ninja_99"; available := true; checkedAt := time2 |}])
  /\ inflight (session sample_events (boot None)) = [js "shroud"]
  /\ requests (session sample_events (boot None))
     = [request_url (js "shroud"); request_url (js "ninja_99");
        request_url (js "shroud")].
Proof. repeat split; vm_compute; reflexivity. Qed.

(** The lookup of C9 over the store of an array holding an empty object, in
    a browser: the error banner shows the engine's message and the result
    is hidden. *)
Example unreadable_entry_hides_the_result :
  exists url pending resume,
    checkUsername (Some (js "shroud")) (mount (setStorage (Some (js "[{}]")) initial))
    = Await url pending resume
    /\ let s' := resume (FetchResponse 200
                           (JsonValue (JObj [(js "exists", JBool true)]))) time1 in
       s_error s' = Some (js "Cannot read properties of undefined (reading 'toLowerCase')")
       /\ error_shown s' = true
       /\ result_shown s' = false
       /\ s_history s' = JArr [JObj []].
Proof. do 3 eexists. split; [reflexivity|]. repeat split. Qed.

End MoreSamples.
